(** * Verification of the portfolio site's service worker and dashboard

    Two programs of the repository are embedded here:

    - [sw.js], the service worker: its [install], [activate] and [fetch]
      handlers, written against a model of the browser's CacheStorage /
      Cache / fetch interfaces (module [Host]);
    - the dashboard's simulated market feed: [generateNextPoint], the
      initialisation effect and the one-second interval effect of [App]
      (module [Feed]);
    - what the dashboard derives from that state and how it guards
      interaction: [totalChange], [HeatmapTile], [TickerTape], the scales
      of [LiveChart] and [handleInteraction] (module [Dashboard]).
*)

From Stdlib Require Import String List Bool Arith ZArith QArith Qminmax Qabs Lia Lqa.
From Stdlib Require Import Ascii DecimalString DecimalNat.
Import ListNotations.

(* ================================================================== *)
(** * The browser as the service worker sees it *)
(* ================================================================== *)

Module Host.

Local Open Scope string_scope.
Local Open Scope nat_scope.
Local Open Scope list_scope.

(** The interfaces [sw.js] calls -- [caches], [Cache], [fetch],
    [console], promises -- as sequential state passing over a [World].
    Outside the model: relative-path resolution (URLs are opaque
    strings), [Vary] headers, storage quota, and the interleaving of
    concurrent events. *)

(** A request has a method, a (resolved) URL and the URL's fragment.
    [url] is the URL with the fragment excluded: that is what the network
    is asked for and what the Cache API compares.  The fragment is
    carried along and plays no part in either. *)
Record Request : Type := mkRequest {
  method   : string;
  url      : string;
  fragment : string
}.

Record Response : Type := mkResponse { status : nat; body : string }.

(** The GET request for the URL [u], written without a fragment, as the
    URLs an asset list names are. *)
Definition GET (u : string) : Request :=
  {| method := "GET"; url := u; fragment := "" |}.

(** What precedes, and what follows, the first [#] of a string. *)
Fixpoint before_hash (s : string) : string :=
  match s with
  | EmptyString => EmptyString
  | String c s' => if Ascii.eqb c "#" then EmptyString else String c (before_hash s')
  end.

Fixpoint after_hash (s : string) : string :=
  match s with
  | EmptyString => EmptyString
  | String c s' => if Ascii.eqb c "#" then s' else after_hash s'
  end.

(** [new Request(s)], and the request of a navigation to [s], for a
    string that may end in a fragment. *)
Definition new_Request (s : string) : Request :=
  {| method := "GET"; url := before_hash s; fragment := after_hash s |}.

Definition with_fragment (f : string) (q : Request) : Request :=
  {| method := method q; url := url q; fragment := f |}.

(** [response.ok] *)
Definition ok (r : Response) : bool :=
  (200 <=? status r) && (status r <=? 299).

Inductive Error : Type :=
  | TypeError
  | InvalidStateError.

(** A cache bucket is a request/response list; the storage is a list of
    named buckets in creation order (the order [caches.keys()] reports
    and [caches.match] searches). *)
Definition Cache : Type := list (Request * Response).
Definition CacheStorage : Type := list (string * Cache).

Record World : Type := mkWorld {
  caches  : CacheStorage;
  server  : Request -> option Response;   (* [None]: the network fails *)
  net_log : list Request;                 (* requests sent to the network *)
  console : list string
}.

Definition set_caches (cs : CacheStorage) (w : World) : World :=
  {| caches := cs; server := server w; net_log := net_log w; console := console w |}.

Definition set_server (s : Request -> option Response) (w : World) : World :=
  {| caches := caches w; server := s; net_log := net_log w; console := console w |}.

Definition sent (rs : list Request) (w : World) : World :=
  {| caches := caches w; server := server w;
     net_log := net_log w ++ rs; console := console w |}.

Definition logged (msg : string) (w : World) : World :=
  {| caches := caches w; server := server w;
     net_log := net_log w; console := console w ++ [msg] |}.

(** ** Promises, sequentialised *)

Inductive Settled (A : Type) : Type :=
  | Fulfilled (a : A)
  | Rejected (e : Error).
Arguments Fulfilled {A} a.
Arguments Rejected {A} e.

Definition Promise (A : Type) : Type := World -> Settled A * World.

Definition resolve {A} (a : A) : Promise A := fun w => (Fulfilled a, w).
Definition reject {A} (e : Error) : Promise A := fun w => (Rejected e, w).

(** [p.then(f)] *)
Definition then_ {A B} (p : Promise A) (f : A -> Promise B) : Promise B :=
  fun w =>
    match p w with
    | (Fulfilled a, w1) => f a w1
    | (Rejected e, w1) => (Rejected e, w1)
    end.

Declare Scope promise_scope.
Delimit Scope promise_scope with promise.
Notation "p >>= f" := (then_ p f) (at level 50, left associativity) : promise_scope.
Notation "p ;; q" := (then_ p (fun _ => q))
  (at level 61, right associativity) : promise_scope.
Local Open Scope promise_scope.

(** [Promise.all]: every promise of the array has already been started,
    so all effects happen; the result is the first rejection, or the
    list of values. *)
Fixpoint Promise_all {A} (ps : list (Promise A)) : Promise (list A) :=
  fun w =>
    match ps with
    | [] => (Fulfilled [], w)
    | p :: ps' =>
        let (r, w1) := p w in
        let (rs, w2) := Promise_all ps' w1 in
        (match r, rs with
         | Rejected e, _ => Rejected e
         | Fulfilled _, Rejected e => Rejected e
         | Fulfilled a, Fulfilled l => Fulfilled (a :: l)
         end, w2)
    end.

Definition outcome {A} (p : Promise A) (w : World) : Settled A := fst (p w).
Definition after {A} (p : Promise A) (w : World) : World := snd (p w).

Definition fulfilled {A} (s : Settled A) : bool :=
  match s with Fulfilled _ => true | Rejected _ => false end.

(** ** The Cache interface *)

(** "Request matches cached item" with the default options: the method
    must be GET and the URLs, fragments excluded, equal. *)
Definition request_matches (q cached : Request) : bool :=
  String.eqb (method q) "GET" && String.eqb (url q) (url cached).

Definition query_cache (q : Request) (c : Cache) : Cache :=
  filter (fun e => request_matches q (fst e)) c.

(** [cache.match(q)] *)
Definition cache_match (q : Request) (c : Cache) : option Response :=
  match query_cache q c with
  | [] => None
  | e :: _ => Some (snd e)
  end.

Definition remove_matching (q : Request) (c : Cache) : Cache :=
  filter (fun e => negb (request_matches q (fst e))) c.

(** "Batch cache operations" for a list of puts.  [added] are the
    requests put so far by this batch: a second put of a matching request
    throws, and the caller then keeps the bucket it had. *)
Fixpoint batch_put (ops : list (Request * Response)) (added : list Request)
    (c : Cache) : Error + Cache :=
  match ops with
  | [] => inr c
  | (rq, rs) :: ops' =>
      if existsb (request_matches rq) added then inl InvalidStateError
      else batch_put ops' (added ++ [rq]) (remove_matching rq c ++ [(rq, rs)])
  end.

(** ** The CacheStorage interface *)

Definition has_bucket (name : string) (cs : CacheStorage) : bool :=
  existsb (fun b => String.eqb name (fst b)) cs.

Fixpoint bucket (name : string) (cs : CacheStorage) : option Cache :=
  match cs with
  | [] => None
  | (n, c) :: cs' => if String.eqb name n then Some c else bucket name cs'
  end.

Definition update_bucket (name : string) (c : Cache) (cs : CacheStorage)
    : CacheStorage :=
  map (fun b => if String.eqb name (fst b) then (fst b, c) else b) cs.

Definition storage_open (name : string) (cs : CacheStorage) : CacheStorage :=
  if has_bucket name cs then cs else cs ++ [(name, [])].

Definition storage_delete (name : string) (cs : CacheStorage) : CacheStorage :=
  filter (fun b => negb (String.eqb name (fst b))) cs.

(** [caches.match(q)] looks into every bucket, in creation order. *)
Fixpoint storage_match (q : Request) (cs : CacheStorage) : option Response :=
  match cs with
  | [] => None
  | (_, c) :: cs' =>
      match cache_match q c with
      | Some r => Some r
      | None => storage_match q cs'
      end
  end.

(** [caches.open(name)]: the handle of a bucket is its name. *)
Definition caches_open (name : string) : Promise string :=
  fun w => (Fulfilled name, set_caches (storage_open name (caches w)) w).

(** [caches.keys()] *)
Definition caches_keys : Promise (list string) :=
  fun w => (Fulfilled (map fst (caches w)), w).

(** [caches.delete(name)] *)
Definition caches_delete (name : string) : Promise bool :=
  fun w => (Fulfilled (has_bucket name (caches w)),
            set_caches (storage_delete name (caches w)) w).

(** [caches.match(request)] *)
Definition caches_match (q : Request) : Promise (option Response) :=
  fun w => (Fulfilled (storage_match q (caches w)), w).

(** [fetch(request)] *)
Definition fetch (q : Request) : Promise Response :=
  fun w =>
    (match server w q with
     | Some r => Fulfilled r
     | None => Rejected TypeError
     end, sent [q] w).

(** [console.log(msg)] *)
Definition console_log (msg : string) : Promise unit :=
  fun w => (Fulfilled tt, logged msg w).

(** What [cache.addAll] accepts from the network: a response that
    arrived, with an ok status other than 206.  Its refusal of a response
    whose [Vary] header is [*] is left out with the headers. *)
Definition addable (r : Response) : bool :=
  ok r && negb (status r =? 206).

Fixpoint fetch_all (srv : Request -> option Response) (qs : list Request)
    : option (list (Request * Response)) :=
  match qs with
  | [] => Some []
  | q :: qs' =>
      match srv q, fetch_all srv qs' with
      | Some r, Some l => if addable r then Some ((q, r) :: l) else None
      | _, _ => None
      end
  end.

(** [cache.addAll(urls)]: every URL is requested; the bucket is written
    only when every response is acceptable and the batch goes through.
    The listed URLs are taken as written, without a fragment. *)
Definition cache_addAll (cache : string) (urls : list string) : Promise unit :=
  fun w =>
    let qs := map GET urls in
    let w1 := sent qs w in
    match fetch_all (server w) qs with
    | None => (Rejected TypeError, w1)
    | Some ops =>
        match bucket cache (caches w) with
        | None => (Fulfilled tt, w1)   (* handle of a bucket deleted meanwhile *)
        | Some c =>
            match batch_put ops [] c with
            | inl e => (Rejected e, w1)
            | inr c' => (Fulfilled tt, set_caches (update_bucket cache c' (caches w)) w1)
            end
        end
    end.

End Host.

(* ================================================================== *)
(** * sw.js *)
(* ================================================================== *)

Module SW.
Import Host.
Local Open Scope string_scope.
Local Open Scope list_scope.
Local Open Scope promise_scope.

Section Handlers.

Variable CACHE_NAME : string.
Variable ASSETS_TO_CACHE : list string.

(** [event.waitUntil] and [event.respondWith] hand the promise to the
    host, which waits for it. *)
Definition waitUntil {A} (p : Promise A) : Promise A := p.
Definition respondWith {A} (p : Promise A) : Promise A := p.

(** Install event *)
Definition install : Promise unit :=
  waitUntil
    (caches_open CACHE_NAME >>= fun cache =>
       console_log "[Service Worker] Caching all assets" ;;
       cache_addAll cache ASSETS_TO_CACHE).

(** Activate event.  A kept bucket contributes [undefined], here [None]. *)
Definition activate : Promise (list (option bool)) :=
  waitUntil
    (caches_keys >>= fun cacheNames =>
       Promise_all
         (map (fun cache =>
                 if negb (String.eqb cache CACHE_NAME) then
                   console_log "[Service Worker] Clearing old cache" ;;
                   caches_delete cache >>= fun deleted => resolve (Some deleted)
                 else resolve None)
              cacheNames)).

(** Fetch event *)
Definition fetch_handler (request : Request) : Promise Response :=
  respondWith
    (caches_match request >>= fun response =>
       match response with
       | Some r => resolve r          (* cache hit - return response *)
       | None => fetch request
       end).

End Handlers.

(** The constants of the deployed worker. *)
Module Deployed.

Definition CACHE_NAME : string := "meet-patel-portfolio-v1".

Definition ASSETS_TO_CACHE : list string :=
  [ "/";
    "/index.html";
    "/projects.html";
    "/about.html";
    "/skills.html";
    "/contact.html";
    "/blog.html";
    "/404.html";
    "/privacy.html";
    "/offline.html";
    "/favicon.jpg";
    "/manifest.json";
    "https://cdn.tailwindcss.com";
    "https://fonts.googleapis.com/css2?family=Manrope:wght@300;400;600&family=Oswald:wght@400;500;700&display=swap" ].

End Deployed.

(** ** The host's side of the lifecycle

    The browser keeps one registration per scope.  An update runs the new
    worker's install handler; when the promise given to [waitUntil] is
    rejected the new worker is discarded and the registration keeps the
    worker it had.  Otherwise the new worker is activated: its activate
    handler runs and it becomes the active worker.  Fetches of controlled
    pages go to the active worker's fetch handler; with no active worker
    they go to the network. *)

Record Version : Type := mkVersion { cache_name : string; assets : list string }.

Record Registration : Type := mkRegistration {
  active : option Version;
  world  : World
}.

Definition update (new : Version) (reg : Registration) : Registration :=
  match install (cache_name new) (assets new) (world reg) with
  | (Rejected _, w1) => {| active := active reg; world := w1 |}
  | (Fulfilled _, w1) =>
      {| active := Some new;
         world := after (activate (cache_name new)) w1 |}
  end.

Definition serve (reg : Registration) (q : Request) : Promise Response :=
  match active reg with
  | Some _ => fetch_handler q
  | None => fetch q
  end.

Definition deployed : Version :=
  {| cache_name := Deployed.CACHE_NAME; assets := Deployed.ASSETS_TO_CACHE |}.

End SW.

(* ================================================================== *)
(** * The dashboard's simulated market feed *)
(* ================================================================== *)

Module Feed.

Local Open Scope string_scope.
Local Open Scope list_scope.
Local Open Scope Q_scope.

(** JavaScript numbers are taken as exact rationals: rounding, infinities
    and NaN are outside this model.  A double rounds where a rational does
    not: with the largest draw below one, [100 + r * 20] is 120 on
    doubles.  Bounds on stored values are therefore stated with [<=] and
    proved for draws in the closed interval ([unit_draws] below), which
    lets a draw act as one.  The two impure globals the component
    reads are explicit: [Math.random] is a sequence of draws with a
    cursor, and the clock is a number of milliseconds. *)
Record Env : Type := mkEnv {
  random : nat -> Q;
  drawn  : nat;
  now    : Z
}.

Definition Eff (A : Type) : Type := Env -> A * Env.

Definition ret {A} (a : A) : Eff A := fun e => (a, e).

Definition bind {A B} (m : Eff A) (f : A -> Eff B) : Eff B :=
  fun e => let (a, e1) := m e in f a e1.

Declare Scope eff_scope.
Delimit Scope eff_scope with eff.
Notation "x <- m ;; k" := (bind m (fun x => k))
  (at level 61, m at next level, right associativity) : eff_scope.
Local Open Scope eff_scope.

(** [Math.random()] *)
Definition Math_random : Eff Q :=
  fun e => (random e (drawn e),
            {| random := random e; drawn := S (drawn e); now := now e |}).

(** [new Date()] and [Date.now()] *)
Definition Date_now : Eff Z := fun e => (now e, e).

(** The time the host lets pass between two timer callbacks. *)
Definition elapse (ms : Z) (e : Env) : Env :=
  {| random := random e; drawn := drawn e; now := (now e + ms)%Z |}.

(** [list.map(f)] with an impure [f], left to right. *)
Fixpoint map_eff {A B} (f : A -> Eff B) (l : list A) : Eff (list B) :=
  match l with
  | [] => ret []
  | a :: l' => b <- f a ;; bs <- map_eff f l' ;; ret (b :: bs)
  end.

(** [Array.from({ length: n }, (_, i) => f i)] *)
Definition Array_from {B} (n : nat) (f : nat -> Eff B) : Eff (list B) :=
  map_eff f (seq 0 n).

(** ** Utilities and constants *)

Definition SECTORS : list (string * Z) :=
  [ ("Tech", 30%Z); ("Finance", 20%Z); ("Energy", 15%Z);
    ("Health", 15%Z); ("Consumer", 10%Z); ("Real Estate", 10%Z) ].

Definition TICKERS : list string :=
  [ "BTC"; "ETH"; "SOL"; "AAPL"; "TSLA"; "NVDA"; "AMD"; "GOOGL" ].

(** Generates a random walk for chart data *)
Definition generateNextPoint (prevPrice : Q) : Eff Q :=
  r <- Math_random ;;
  let change := (r - 0.5) * 5 in
  ret (Qmax 0 (prevPrice + change)).

(** ** State of [App] *)

Record ChartPoint : Type := mkPoint { time : Z; value : Q }.

Record Sector : Type := mkSector { name : string; weight : Z; change : Q }.

Record Ticker : Type := mkTicker { symbol : string; price : Q; ticker_change : Q }.

Record AppState : Type := mkApp {
  chartData      : list ChartPoint;
  sectors        : list Sector;
  tickerData     : list Ticker;
  portfolioValue : Q
}.

(** The [useState] initial values. *)
Definition initial_state : AppState :=
  {| chartData := []; sectors := []; tickerData := [];
     portfolioValue := 124500.00 |}.

(** The initialisation effect: the last 50 chart points, the sectors and
    the tickers. *)
Definition init_effect (s : AppState) : Eff AppState :=
  t0 <- Date_now ;;
  initData <- Array_from 50 (fun i =>
                r <- Math_random ;;
                ret {| time := (t0 - (50 - Z.of_nat i) * 1000)%Z;
                       value := 100 + r * 20 |}) ;;
  secs <- map_eff (fun sw =>
            r <- Math_random ;;
            ret {| name := fst sw; weight := snd sw; change := (r - 0.5) * 4 |})
          SECTORS ;;
  ticks <- map_eff (fun t =>
             r <- Math_random ;;
             ret {| symbol := t; price := 100 + r * 1000; ticker_change := 0 |})
           TICKERS ;;
  ret {| chartData := initData; sectors := secs; tickerData := ticks;
         portfolioValue := portfolioValue s |}.

(** [prev[prev.length - 1]]: [undefined], here [None], on the empty array. *)
Definition last_point (prev : list ChartPoint) : option ChartPoint :=
  nth_error prev (Nat.pred (length prev)).

(** [prev.slice(1)] *)
Definition slice1 {A} (prev : list A) : list A := tl prev.

(** One callback of the interval: the three state updaters, each run
    once, in the order they are queued; the nested [setPortfolioValue]
    is applied with the values of the chart updater that queued it.
    Reading [.value] of [undefined] throws: the callback then yields
    [None]. *)
Definition tick (s : AppState) : Eff (option AppState) :=
  match last_point (chartData s) with
  | None => ret None
  | Some lastPoint =>
      (* 1. Update Chart Data *)
      let lastValue := value lastPoint in
      newValue <- generateNextPoint lastValue ;;
      newTime <- Date_now ;;
      let newData := slice1 (chartData s) ++ [{| time := newTime; value := newValue |}] in
      let pv := portfolioValue s + (newValue - lastValue) * 100 in
      (* 2. Update Sectors randomly *)
      secs <- map_eff (fun sc =>
                r <- Math_random ;;
                ret {| name := name sc; weight := weight sc;
                       change := change sc + (r - 0.5) * 0.2 |})
              (sectors s) ;;
      (* 3. Update Tickers *)
      ticks <- map_eff (fun t =>
                 r <- Math_random ;;
                 let move := (r - 0.5) * 2 in
                 ret {| symbol := symbol t; price := price t + move;
                        ticker_change := move |})
               (tickerData s) ;;
      ret (Some {| chartData := newData; sectors := secs; tickerData := ticks;
                   portfolioValue := pv |})
  end.

(** [setInterval(..., 1000)]: [n] callbacks, one second apart, stopping
    at the first one that throws. *)
Fixpoint run (n : nat) (s : AppState) : Eff (option AppState) :=
  match n with
  | O => ret (Some s)
  | S k =>
      fun e =>
        match tick s (elapse 1000 e) with
        | (Some s', e') => run k s' e'
        | (None, e') => (None, e')
        end
  end.

(** Mounting [App], then [n] ticks. *)
Definition session (n : nat) : Eff (option AppState) :=
  s0 <- init_effect initial_state ;; run n s0.

(** The contract of [Math.random]: every draw lies in [0, 1). *)
Definition fair (e : Env) : Prop := forall i, 0 <= random e i /\ random e i < 1.

(** Draws in the closed interval: the contract of [Math.random] with the
    upper end included, which covers a product or sum with a draw that
    rounds up to its bound. *)
Definition unit_draws (e : Env) : Prop :=
  forall i, 0 <= random e i /\ random e i <= 1.

End Feed.

(* ================================================================== *)
(** * The dashboard's derived values and interaction guard *)
(* ================================================================== *)

Module Dashboard.
Import Feed.

Local Open Scope string_scope.
Local Open Scope list_scope.
Local Open Scope Q_scope.

(** ** Numbers that need not be finite

    A division can leave the rationals.  Its result is a [Num]; signed
    zeros are not told apart (a zero divisor is taken as [+0], which is
    what a chart value clamped by [Math.max(0, _)] is). *)
Inductive Num : Type :=
  | Finite (q : Q)
  | PosInfinity
  | NegInfinity
  | NaN.

(** [a / b] *)
Definition js_div (a b : Q) : Num :=
  if Qeq_bool b 0 then
    match a ?= 0 with
    | Gt => PosInfinity
    | Lt => NegInfinity
    | Eq => NaN
    end
  else Finite (a / b).

(** [x * k] for a finite [k] *)
Definition js_mul (x : Num) (k : Q) : Num :=
  match x with
  | Finite q => Finite (q * k)
  | PosInfinity =>
      match k ?= 0 with Gt => PosInfinity | Lt => NegInfinity | Eq => NaN end
  | NegInfinity =>
      match k ?= 0 with Gt => NegInfinity | Lt => PosInfinity | Eq => NaN end
  | NaN => NaN
  end.

(** [x >= 0] *)
Definition js_ge0 (x : Num) : bool :=
  match x with
  | Finite q => Qle_bool 0 q
  | PosInfinity => true
  | NegInfinity => false
  | NaN => false
  end.

(** ** [App]: the total change shown next to the chart *)

(** The [useMemo] value.  With two points or more both [chartData[0]]
    and the last point exist; the last branch is never taken. *)
Definition totalChange (chartData : list ChartPoint) : Num :=
  if (length chartData <? 2)%nat then Finite 0
  else
    match nth_error chartData 0, last_point chartData with
    | Some first, Some last =>
        js_mul (js_div (value last - value first) (value first)) 100
    | _, _ => NaN
    end.

(** ** [HeatmapTile] *)

Definition isPositive (sector : Sector) : bool := Qle_bool 0 (change sector).

(** Dynamic opacity based on magnitude of change *)
Definition opacity (sector : Sector) : Q :=
  Qmin (Qabs (change sector) / 5) 0.9 + 0.1.

(** The alpha channel of the tile's background colour. *)
Definition backgroundAlpha (sector : Sector) : Q := opacity sector * 0.2.

(** [sector.change > 0 ? '+' : ''] *)
Definition sign_prefix (sector : Sector) : string :=
  if Qle_bool (change sector) 0 then "" else "+".

(** ** [TickerTape] *)

(** A non-negative integer in a template literal. *)
Definition string_of_nat (i : nat) : string :=
  NilEmpty.string_of_uint (Nat.to_uint i).

(** [list.map((item, i) => f item i)] *)
Fixpoint mapi_from {A B} (i : nat) (f : A -> nat -> B) (l : list A) : list B :=
  match l with
  | [] => []
  | a :: l' => f a i :: mapi_from (S i) f l'
  end.

Definition mapi {A B} (f : A -> nat -> B) (l : list A) : list B :=
  mapi_from 0 f l.

(** The items the tape renders: duplicated for a seamless loop. *)
Definition TickerTape_items (items : list Ticker) : list Ticker :=
  items ++ items.

(** The React key of each rendered item. *)
Definition TickerTape_keys (items : list Ticker) : list string :=
  mapi (fun item i => (symbol item ++ "-" ++ string_of_nat i)%string)
       (TickerTape_items items).

(** ** [LiveChart]: dimensions and scales *)

Record Dimensions : Type := mkDimensions { width : Z; height : Z }.

(** [d3.min] and [d3.max] of an array of numbers: [undefined], here
    [None], on the empty array. *)
Definition d3_min (l : list Q) : option Q :=
  match l with
  | [] => None
  | x :: l' => Some (fold_left Qmin l' x)
  end.

Definition d3_max (l : list Q) : option Q :=
  match l with
  | [] => None
  | x :: l' => Some (fold_left Qmax l' x)
  end.

Record Scales : Type := mkScales {
  innerWidth  : Z;
  innerHeight : Z;
  yDomain     : Q * Q
}.

(** The drawing effect up to its inner dimensions and the domain of its
    y scale; the x scale and the drawing itself are left out.  It
    returns early, here [None], when the svg is not mounted, the width is
    zero or there is no data. *)
Definition LiveChart_scales (svgMounted : bool) (dimensions : Dimensions)
    (data : list ChartPoint) : option Scales :=
  if negb svgMounted || (width dimensions =? 0)%Z || (length data =? 0)%nat
  then None
  else
    let margin_top := 20%Z in
    let margin_right := 0%Z in
    let margin_bottom := 20%Z in
    let margin_left := 0%Z in
    match d3_min (map value data), d3_max (map value data) with
    | Some lo, Some hi =>
        Some {| innerWidth := (width dimensions - margin_left - margin_right)%Z;
                innerHeight := (height dimensions - margin_top - margin_bottom)%Z;
                yDomain := (lo * 0.95, hi * 1.05) |}
    | _, _ => None
    end.

(** ** [App]: the interaction handler and its guard *)

Record ModalContent : Type := mkModal { title : string; body : string }.

Record UI : Type := mkUI {
  isDarkMode       : bool;
  activeTab        : string;
  isConnected      : bool;
  isMobileMenuOpen : bool;
  showDemoModal    : bool;
  modalContent     : ModalContent;
  clickCount       : nat
}.

(** The component's [clickTimerRef], and what of the host the handler
    reaches: the timers that are pending and the windows it opened. *)
Record Page : Type := mkPage {
  ui            : UI;
  clickTimerRef : option nat;
  pending       : list nat;
  next_timer    : nat;
  opened        : list string
}.

(** The actions the component passes to [handleInteraction]. *)
Inductive Action : Type :=
  | OpenMobileMenu                      (* setIsMobileMenuOpen(true) *)
  | CloseMobileMenu                     (* setIsMobileMenuOpen(false) *)
  | ToggleDarkMode                      (* setIsDarkMode(prev => !prev) *)
  | ToggleConnected                     (* setIsConnected(prev => !prev) *)
  | OpenSite                            (* window.open(..., "_blank") *)
  | SelectTab (id : string)             (* setActiveTab(item.id) *)
  | SelectTabMobile (id : string).      (* setActiveTab(item.id); setIsMobileMenuOpen(false) *)

Definition initial_ui : UI :=
  {| isDarkMode := true;
     activeTab := "dashboard";
     isConnected := true;
     isMobileMenuOpen := false;
     showDemoModal := true;
     modalContent :=
       {| title := "UI/UX Showcase";
          body := "Welcome to this demo application. This site simulates a real-time fintech dashboard to demonstrate advanced interface design and React capabilities." |};
     clickCount := 0 |}.

(** Timer handles of the host are positive. *)
Definition initial_page : Page :=
  {| ui := initial_ui; clickTimerRef := None; pending := [];
     next_timer := 1; opened := [] |}.

Definition set_ui (u : UI) (p : Page) : Page :=
  {| ui := u; clickTimerRef := clickTimerRef p; pending := pending p;
     next_timer := next_timer p; opened := opened p |}.

Definition run_action (a : Action) (p : Page) : Page :=
  let u := ui p in
  match a with
  | OpenMobileMenu =>
      set_ui {| isDarkMode := isDarkMode u; activeTab := activeTab u;
                isConnected := isConnected u; isMobileMenuOpen := true;
                showDemoModal := showDemoModal u; modalContent := modalContent u;
                clickCount := clickCount u |} p
  | CloseMobileMenu =>
      set_ui {| isDarkMode := isDarkMode u; activeTab := activeTab u;
                isConnected := isConnected u; isMobileMenuOpen := false;
                showDemoModal := showDemoModal u; modalContent := modalContent u;
                clickCount := clickCount u |} p
  | ToggleDarkMode =>
      set_ui {| isDarkMode := negb (isDarkMode u); activeTab := activeTab u;
                isConnected := isConnected u; isMobileMenuOpen := isMobileMenuOpen u;
                showDemoModal := showDemoModal u; modalContent := modalContent u;
                clickCount := clickCount u |} p
  | ToggleConnected =>
      set_ui {| isDarkMode := isDarkMode u; activeTab := activeTab u;
                isConnected := negb (isConnected u);
                isMobileMenuOpen := isMobileMenuOpen u;
                showDemoModal := showDemoModal u; modalContent := modalContent u;
                clickCount := clickCount u |} p
  | OpenSite =>
      {| ui := u; clickTimerRef := clickTimerRef p; pending := pending p;
         next_timer := next_timer p;
         opened := opened p ++ ["https://www.meetpatel.me"] |}
  | SelectTab id =>
      set_ui {| isDarkMode := isDarkMode u; activeTab := id;
                isConnected := isConnected u; isMobileMenuOpen := isMobileMenuOpen u;
                showDemoModal := showDemoModal u; modalContent := modalContent u;
                clickCount := clickCount u |} p
  | SelectTabMobile id =>
      set_ui {| isDarkMode := isDarkMode u; activeTab := id;
                isConnected := isConnected u; isMobileMenuOpen := false;
                showDemoModal := showDemoModal u; modalContent := modalContent u;
                clickCount := clickCount u |} p
  end.

(** The updater given to [setClickCount]: the spam detection. *)
Definition count_click (u : UI) : UI :=
  let newCount := S (clickCount u) in
  if (4 <? newCount)%nat then       (* Rule: More than 4 times *)
    {| isDarkMode := isDarkMode u; activeTab := activeTab u;
       isConnected := isConnected u; isMobileMenuOpen := isMobileMenuOpen u;
       showDemoModal := true;
       modalContent :=
         {| title := "Design Demo";
            body := "This site is a demo for UI/UX design showcase." |};
       clickCount := 0 |}             (* Reset count after triggering *)
  else
    {| isDarkMode := isDarkMode u; activeTab := activeTab u;
       isConnected := isConnected u; isMobileMenuOpen := isMobileMenuOpen u;
       showDemoModal := showDemoModal u; modalContent := modalContent u;
       clickCount := newCount |}.

(** [clearTimeout(id)] *)
Definition clearTimeout (id : nat) (p : Page) : Page :=
  {| ui := ui p; clickTimerRef := clickTimerRef p;
     pending := filter (fun t => negb (t =? id)%nat) (pending p);
     next_timer := next_timer p; opened := opened p |}.

(** [clickTimerRef.current = setTimeout(() => setClickCount(0), 1000)] *)
Definition arm_timer (p : Page) : Page :=
  {| ui := ui p; clickTimerRef := Some (next_timer p);
     pending := pending p ++ [next_timer p];
     next_timer := S (next_timer p); opened := opened p |}.

(** Centralized interaction handler with guard *)
Definition handleInteraction (action : option Action) (p : Page) : Page :=
  (* Execute the original action *)
  let p1 := match action with
            | Some a => run_action a p
            | None => p
            end in
  (* Spam detection logic *)
  let p2 := set_ui (count_click (ui p1)) p1 in
  (* Reset spam counter after 1 second of inactivity *)
  let p3 := match clickTimerRef p2 with
            | Some id => if (id =? 0)%nat then p2 else clearTimeout id p2
            | None => p2
            end in
  arm_timer p3.

(** The callback of the timer: [setClickCount(0)], run by the host when
    the timer [id] is pending and one second has passed. *)
Definition timer_fires (id : nat) (p : Page) : Page :=
  if existsb (Nat.eqb id) (pending p) then
    let u := ui p in
    {| ui := {| isDarkMode := isDarkMode u; activeTab := activeTab u;
                isConnected := isConnected u; isMobileMenuOpen := isMobileMenuOpen u;
                showDemoModal := showDemoModal u; modalContent := modalContent u;
                clickCount := 0 |};
       clickTimerRef := clickTimerRef p;
       pending := filter (fun t => negb (t =? id)%nat) (pending p);
       next_timer := next_timer p; opened := opened p |}
  else p.

(** The modal's two buttons: [setShowDemoModal(false)]. *)
Definition close_modal (p : Page) : Page :=
  let u := ui p in
  set_ui {| isDarkMode := isDarkMode u; activeTab := activeTab u;
            isConnected := isConnected u; isMobileMenuOpen := isMobileMenuOpen u;
            showDemoModal := false; modalContent := modalContent u;
            clickCount := clickCount u |} p.

Inductive Event : Type :=
  | Click (action : option Action)
  | TimerFires (id : nat)
  | CloseModal.

Definition handle (p : Page) (ev : Event) : Page :=
  match ev with
  | Click action => handleInteraction action p
  | TimerFires id => timer_fires id p
  | CloseModal => close_modal p
  end.

(** The page after a sequence of events. *)
Definition play (evs : list Event) (p : Page) : Page := fold_left handle evs p.

End Dashboard.

(* ================================================================== *)
(** * Properties of the service worker *)
(* ================================================================== *)

Module SWProofs.
Import Host SW.
Local Open Scope string_scope.
Local Open Scope list_scope.
Local Open Scope promise_scope.

(** ** Auxiliary definitions *)

(** The entries of [c] whose URL is none of [us]. *)
Definition remove_urls (us : list string) (c : Cache) : Cache :=
  filter (fun e => negb (existsb (fun u => String.eqb u (url (fst e))) us)) c.

Definition keys_of (ops : list (Request * Response)) : list string :=
  map (fun op => url (fst op)) ops.

Definition all_GET (ops : list (Request * Response)) : Prop :=
  Forall (fun op => method (fst op) = "GET") ops.

Definition fetch_ok (srv : Request -> option Response) (u : string) : bool :=
  match srv (GET u) with
  | Some r => addable r
  | None => false
  end.

Definition old_bucket (name : string) (cs : CacheStorage) : Cache :=
  match bucket name cs with
  | Some c => c
  | None => []
  end.

Definition install_msg : string := "[Service Worker] Caching all assets".

Definition installed_caches (CACHE_NAME : string) (ASSETS : list string)
    (ops : list (Request * Response)) (cs : CacheStorage) : CacheStorage :=
  update_bucket CACHE_NAME
    (remove_urls ASSETS (old_bucket CACHE_NAME cs) ++ ops)
    (storage_open CACHE_NAME cs).

(** What the activate handler maps over the bucket names. *)
Definition clear_stale (CACHE_NAME cache : string) : Promise (option bool) :=
  if negb (String.eqb cache CACHE_NAME) then
    console_log "[Service Worker] Clearing old cache" ;;
    caches_delete cache >>= fun deleted => resolve (Some deleted)
  else resolve None.

Definition survives (CACHE_NAME : string) (names : list string)
    (b : string * Cache) : bool :=
  negb (existsb (fun n => negb (String.eqb n CACHE_NAME) && String.eqb n (fst b)) names).

(** ** Concrete worlds *)

Definition page (u : string) : Response :=
  {| status := 200; body := "content of " ++ u |}.

Definition not_found : Response := {| status := 404; body := "" |}.

(** A server that has every asset of the deployed worker. *)
Definition site_server (q : Request) : option Response :=
  if existsb (String.eqb (url q)) Deployed.ASSETS_TO_CACHE then Some (page (url q))
  else Some not_found.

(** The same server after [/blog.html] has been lost. *)
Definition broken_server (q : Request) : option Response :=
  if String.eqb (url q) "/blog.html" then Some not_found else site_server q.

Definition offline (q : Request) : option Response := None.

Definition fresh_world : World :=
  {| caches := []; server := site_server; net_log := []; console := [] |}.

Definition broken_world : World :=
  {| caches := [("meet-patel-portfolio-v0", [(GET "/", page "/old")])];
     server := broken_server; net_log := []; console := [] |}.

(** The deployed worker is installed and active; then a next version,
    which adds [/resume.pdf] to the asset list, is installed and waits;
    then the network goes down. *)
Definition next_version : Version :=
  {| cache_name := "meet-patel-portfolio-v2";
     assets := Deployed.ASSETS_TO_CACHE ++ ["/resume.pdf"] |}.

Definition next_server (q : Request) : option Response :=
  if String.eqb (url q) "/resume.pdf" then Some (page (url q)) else site_server q.

Definition serving_world : World :=
  after (activate Deployed.CACHE_NAME)
    (after (install Deployed.CACHE_NAME Deployed.ASSETS_TO_CACHE) fresh_world).

Definition waiting_world : World :=
  set_server offline
    (after (install (cache_name next_version) (assets next_version))
       (set_server next_server serving_world)).

(** A storage in which an older bucket survives next to the current,
    empty one, on an origin that is offline. *)
Definition stale_world : World :=
  {| caches := [("meet-patel-portfolio-v0", [(GET "/resume.pdf", page "/resume.pdf")]);
                (Deployed.CACHE_NAME, [])];
     server := offline; net_log := []; console := [] |}.

(** An origin served by version v0 on which the deployed version fails
    to install because [/blog.html] is gone. *)
Definition v0 : Version :=
  {| cache_name := "meet-patel-portfolio-v0"; assets := ["/"] |}.

Definition broken_registration : Registration :=
  {| active := Some v0; world := broken_world |}.

(** ** Requests and buckets *)

Lemma request_matches_GET (u : string) (e : Request) :
  request_matches (GET u) e = String.eqb u (url e).
Proof. reflexivity. Qed.

Lemma request_matches_exact (q e : Request) :
  request_matches q e = true <-> method q = "GET" /\ url q = url e.
Proof.
  unfold request_matches. rewrite andb_true_iff, !String.eqb_eq. tauto.
Qed.

Lemma remove_urls_nil (c : Cache) : remove_urls [] c = c.
Proof.
  unfold remove_urls. induction c as [|e c IH]; simpl; [reflexivity|].
  f_equal. exact IH.
Qed.

Lemma remove_urls_app (us : list string) (c1 c2 : Cache) :
  remove_urls us (c1 ++ c2) = remove_urls us c1 ++ remove_urls us c2.
Proof. apply filter_app. Qed.

Lemma remove_matching_remove_urls (u m f : string) (us : list string) (c : Cache) :
  m = "GET" ->
  remove_urls us (remove_matching (mkRequest m u f) c) = remove_urls (u :: us) c.
Proof.
  intros ->. unfold remove_urls, remove_matching.
  induction c as [|e c IH]; simpl; [reflexivity|].
  unfold request_matches at 1. simpl.
  destruct (String.eqb u (url (fst e))); simpl; rewrite IH; reflexivity.
Qed.

Lemma remove_urls_keys (us : list string) (ops : list (Request * Response)) :
  incl (keys_of ops) us -> remove_urls us ops = [].
Proof.
  induction ops as [|op ops IH]; intros Hin; [reflexivity|].
  simpl. assert (Hop : existsb (fun u => String.eqb u (url (fst op))) us = true).
  { apply existsb_exists. exists (url (fst op)). split.
    - apply Hin. now left.
    - apply String.eqb_refl. }
  rewrite Hop. simpl. apply IH. intros x Hx. apply Hin. now right.
Qed.

Lemma remove_urls_idem (us : list string) (c : Cache) :
  remove_urls us (remove_urls us c) = remove_urls us c.
Proof.
  unfold remove_urls. induction c as [|e c IH]; simpl; [reflexivity|].
  destruct (existsb _ us) eqn:E; simpl; [exact IH|].
  rewrite E. simpl. now rewrite IH.
Qed.

Lemma remove_urls_not_key (us : list string) (op : Request * Response) :
  ~ In (url (fst op)) us -> remove_urls us [op] = [op].
Proof.
  intros Hn. simpl.
  destruct (existsb _ us) eqn:E; [|reflexivity].
  apply existsb_exists in E. destruct E as (u & Hu & Heq).
  apply String.eqb_eq in Heq. subst u. contradiction.
Qed.

(** ** The batch of puts in closed form *)

Lemma batch_put_closed (ops : list (Request * Response)) :
  forall (added : list Request) (c : Cache),
    all_GET ops ->
    NoDup (map url added ++ keys_of ops) ->
    batch_put ops added c = inr (remove_urls (keys_of ops) c ++ ops).
Proof.
  induction ops as [|[rq rs] ops IH]; intros added c HG HN; simpl in *.
  - now rewrite remove_urls_nil, app_nil_r.
  - inversion HG as [|? ? Hm HG']; subst. simpl in Hm.
    apply NoDup_remove in HN. destruct HN as [HN Hnotin].
    assert (Hfresh : existsb (request_matches rq) added = false).
    { apply not_true_is_false. intros E. apply existsb_exists in E.
      destruct E as (a & Ha & Hma). apply request_matches_exact in Hma.
      apply Hnotin. apply in_or_app. left. destruct Hma as [_ ->].
      now apply in_map. }
    rewrite Hfresh. rewrite IH.
    + f_equal. rewrite remove_urls_app.
      destruct rq as [m u f].
      rewrite (remove_matching_remove_urls u m f _ c Hm).
      rewrite remove_urls_not_key.
      * now rewrite <- app_assoc.
      * simpl. intros Hin. apply Hnotin. apply in_or_app. now right.
    + exact HG'.
    + rewrite map_app. simpl. rewrite <- app_assoc. simpl.
      apply NoDup_Add with (a := url rq) (l := map url added ++ keys_of ops).
      * apply Add_app.
      * split; assumption.
Qed.

Lemma batch_put_NoDup (ops : list (Request * Response)) :
  forall (added : list Request) (c c' : Cache),
    all_GET ops ->
    Forall (fun a => method a = "GET") added ->
    NoDup (map url added) ->
    batch_put ops added c = inr c' ->
    NoDup (map url added ++ keys_of ops).
Proof.
  induction ops as [|[rq rs] ops IH]; intros added c c' HG HA HN Hb; simpl in *.
  - now rewrite app_nil_r.
  - inversion HG as [|? ? Hm HG']; subst. simpl in Hm.
    destruct (existsb (request_matches rq) added) eqn:E; [discriminate|].
    assert (Hnotin : ~ In (url rq) (map url added)).
    { intros Hin. apply in_map_iff in Hin. destruct Hin as (a & Hu & Ha).
      assert (existsb (request_matches rq) added = true); [|congruence].
      apply existsb_exists. exists a. split; [exact Ha|].
      apply request_matches_exact. split; [exact Hm | now symmetry]. }
    apply IH in Hb; try assumption.
    + rewrite map_app in Hb. simpl in Hb. rewrite <- app_assoc in Hb. exact Hb.
    + apply Forall_app. split; [exact HA | now constructor].
    + rewrite map_app. simpl.
      apply NoDup_Add with (a := url rq) (l := map url added ++ []).
      * apply Add_app.
      * rewrite app_nil_r. split; assumption.
Qed.

(** ** Queries on a bucket *)

Lemma query_cache_app (q : Request) (c1 c2 : Cache) :
  query_cache q (c1 ++ c2) = query_cache q c1 ++ query_cache q c2.
Proof. apply filter_app. Qed.

Lemma query_cache_remove_urls (u : string) (us : list string) (c : Cache) :
  In u us -> query_cache (GET u) (remove_urls us c) = [].
Proof.
  intros Hin. unfold query_cache, remove_urls.
  induction c as [|e c IH]; simpl; [reflexivity|].
  destruct (existsb _ us) eqn:E; simpl; [exact IH|].
  rewrite request_matches_GET.
  destruct (String.eqb u (url (fst e))) eqn:Eu; [|exact IH].
  exfalso. assert (existsb (fun u0 => String.eqb u0 (url (fst e))) us = true);
    [|congruence].
  apply existsb_exists. now exists u.
Qed.

Lemma query_cache_absent (u : string) (ops : list (Request * Response)) :
  ~ In u (keys_of ops) -> query_cache (GET u) ops = [].
Proof.
  induction ops as [|op ops IH]; intros Hn; [reflexivity|].
  simpl in *. rewrite request_matches_GET.
  destruct (String.eqb u (url (fst op))) eqn:E.
  - apply String.eqb_eq in E. exfalso. apply Hn. left. now symmetry.
  - apply IH. intros H. apply Hn. now right.
Qed.

Lemma query_cache_ops (ops : list (Request * Response)) (u : string) (r : Response) :
  NoDup (keys_of ops) -> In (GET u, r) ops ->
  query_cache (GET u) ops = [(GET u, r)].
Proof.
  induction ops as [|op ops IH]; intros HN Hin; [contradiction|].
  simpl in HN. inversion HN as [|? ? Hnotin HN']; subst.
  simpl. rewrite request_matches_GET. destruct Hin as [-> | Hin].
  - simpl. rewrite String.eqb_refl. f_equal.
    apply query_cache_absent. exact Hnotin.
  - destruct (String.eqb u (url (fst op))) eqn:E.
    + apply String.eqb_eq in E. exfalso. apply Hnotin. rewrite <- E.
      change u with (url (fst (GET u, r))).
      apply (in_map (fun op => url (fst op))). exact Hin.
    + now apply IH.
Qed.

(** ** What the network hands to [addAll] *)

Lemma fetch_all_spec (srv : Request -> option Response) (us : list string) :
  match fetch_all srv (map GET us) with
  | Some ops =>
      forallb (fetch_ok srv) us = true /\
      map fst ops = map GET us /\
      Forall (fun op => srv (fst op) = Some (snd op)) ops
  | None => forallb (fetch_ok srv) us = false
  end.
Proof.
  induction us as [|u us IH]; simpl.
  - repeat split. constructor.
  - unfold fetch_ok at 1 3.
    destruct (srv (GET u)) as [r|] eqn:Er; [|reflexivity].
    destruct (fetch_all srv (map GET us)) as [l|].
    + destruct IH as (Hall & Hfst & Hsrv).
      destruct (addable r); [|reflexivity].
      simpl. repeat split; [exact Hall | now rewrite Hfst |].
      constructor; [exact Er | exact Hsrv].
    + rewrite IH. apply andb_false_r.
Qed.

Lemma fetched_keys (ops : list (Request * Response)) (us : list string) :
  map fst ops = map GET us -> keys_of ops = us /\ all_GET ops.
Proof.
  revert us. induction ops as [|op ops IH]; intros [|u us] H;
    try discriminate; simpl in *.
  - split; [reflexivity | constructor].
  - injection H as Hop Hrest. destruct (IH us Hrest) as [Hk HG].
    split.
    + rewrite Hop, Hk. reflexivity.
    + constructor; [now rewrite Hop | exact HG].
Qed.

Lemma fetched_entry (srv : Request -> option Response)
    (ops : list (Request * Response)) (us : list string) (u : string) :
  map fst ops = map GET us ->
  Forall (fun op => srv (fst op) = Some (snd op)) ops ->
  In u us ->
  exists r, srv (GET u) = Some r /\ In (GET u, r) ops.
Proof.
  revert us. induction ops as [|[q r] ops IH]; intros [|u' us] H HF Hin;
    try discriminate; try contradiction; simpl in *.
  injection H as Hop Hrest. inversion HF as [|? ? Hq HF']; subst.
  destruct Hin as [-> | Hin].
  - exists r. split; [exact Hq | now left].
  - destruct (IH us Hrest HF' Hin) as (r' & Hs & Hi).
    exists r'. split; [exact Hs | now right].
Qed.

(** ** Buckets of the storage *)

Lemma has_bucket_bucket (name : string) (cs : CacheStorage) :
  has_bucket name cs = match bucket name cs with Some _ => true | None => false end.
Proof.
  induction cs as [|[n c] cs IH]; simpl; [reflexivity|].
  destruct (String.eqb name n); [reflexivity | exact IH].
Qed.

Lemma bucket_app (name : string) (cs1 cs2 : CacheStorage) :
  bucket name (cs1 ++ cs2) =
  match bucket name cs1 with
  | Some c => Some c
  | None => bucket name cs2
  end.
Proof.
  induction cs1 as [|[n c] cs1 IH]; simpl; [reflexivity|].
  destruct (String.eqb name n); [reflexivity | exact IH].
Qed.

Lemma bucket_storage_open (name : string) (cs : CacheStorage) :
  bucket name (storage_open name cs) = Some (old_bucket name cs).
Proof.
  unfold storage_open, old_bucket. rewrite has_bucket_bucket.
  destruct (bucket name cs) as [c|] eqn:E; [exact E|].
  rewrite bucket_app, E. simpl. now rewrite String.eqb_refl.
Qed.

Lemma bucket_update_bucket (name : string) (c : Cache) (cs : CacheStorage) :
  bucket name (update_bucket name c cs) =
  match bucket name cs with Some _ => Some c | None => None end.
Proof.
  induction cs as [|[n c0] cs IH]; simpl; [reflexivity|].
  destruct (String.eqb name n) eqn:E; simpl; rewrite E; [reflexivity | exact IH].
Qed.

Lemma has_bucket_update_bucket (name n : string) (c : Cache) (cs : CacheStorage) :
  has_bucket n (update_bucket name c cs) = has_bucket n cs.
Proof.
  unfold has_bucket, update_bucket. induction cs as [|[n0 c0] cs IH]; simpl;
    [reflexivity|].
  rewrite IH. destruct (String.eqb name n0); reflexivity.
Qed.

Lemma update_bucket_twice (name : string) (c1 c2 : Cache) (cs : CacheStorage) :
  update_bucket name c2 (update_bucket name c1 cs) = update_bucket name c2 cs.
Proof.
  unfold update_bucket. rewrite map_map. apply map_ext. intros [n c]. simpl.
  destruct (String.eqb name n) eqn:E; simpl; rewrite E; reflexivity.
Qed.

Lemma storage_open_has (name : string) (cs : CacheStorage) :
  has_bucket name cs = true -> storage_open name cs = cs.
Proof. intros H. unfold storage_open. now rewrite H. Qed.

Lemma has_bucket_storage_open (name : string) (cs : CacheStorage) :
  has_bucket name (storage_open name cs) = true.
Proof.
  rewrite has_bucket_bucket, bucket_storage_open. reflexivity.
Qed.

(** ** The install handler, step by step *)

Lemma install_spec (CACHE_NAME : string) (ASSETS : list string) (w : World) :
  install CACHE_NAME ASSETS w =
    let cs1 := storage_open CACHE_NAME (caches w) in
    let w1 := sent (map GET ASSETS) (logged install_msg (set_caches cs1 w)) in
    match fetch_all (server w) (map GET ASSETS) with
    | None => (Rejected TypeError, w1)
    | Some ops =>
        match batch_put ops [] (old_bucket CACHE_NAME (caches w)) with
        | inl e => (Rejected e, w1)
        | inr c' => (Fulfilled tt, set_caches (update_bucket CACHE_NAME c' cs1) w1)
        end
    end.
Proof.
  unfold install, waitUntil, then_, caches_open, console_log, cache_addAll.
  simpl. rewrite bucket_storage_open.
  destruct (fetch_all (server w) (map GET ASSETS)); reflexivity.
Qed.

(** ** Install *)

Lemma install_fulfilled_inv (CACHE_NAME : string) (ASSETS : list string) (w : World) :
  fulfilled (outcome (install CACHE_NAME ASSETS) w) = true ->
  exists ops,
    fetch_all (server w) (map GET ASSETS) = Some ops /\
    NoDup ASSETS /\ keys_of ops = ASSETS /\ all_GET ops /\
    install CACHE_NAME ASSETS w =
      (Fulfilled tt,
       set_caches
         (update_bucket CACHE_NAME
            (remove_urls ASSETS (old_bucket CACHE_NAME (caches w)) ++ ops)
            (storage_open CACHE_NAME (caches w)))
         (sent (map GET ASSETS)
            (logged install_msg
               (set_caches (storage_open CACHE_NAME (caches w)) w)))).
Proof.
  unfold outcome. rewrite install_spec. cbv zeta.
  pose proof (fetch_all_spec (server w) ASSETS) as Hf.
  destruct (fetch_all (server w) (map GET ASSETS)) as [ops|]; [|discriminate].
  destruct Hf as (_ & Hfst & _).
  destruct (fetched_keys ops ASSETS Hfst) as [Hk HG].
  destruct (batch_put ops [] (old_bucket CACHE_NAME (caches w))) as [e|c'] eqn:Eb;
    [discriminate|].
  intros _. exists ops.
  assert (HN : NoDup ASSETS).
  { rewrite <- Hk.
    apply (batch_put_NoDup ops [] _ c' HG (Forall_nil _) (NoDup_nil _) Eb). }
  rewrite (batch_put_closed ops [] _ HG) in Eb by (simpl; now rewrite Hk).
  injection Eb as <-. rewrite Hk. repeat split; assumption.
Qed.

Lemma install_rejected_caches (CACHE_NAME : string) (ASSETS : list string) (w : World) :
  fulfilled (outcome (install CACHE_NAME ASSETS) w) = false ->
  caches (after (install CACHE_NAME ASSETS) w) = storage_open CACHE_NAME (caches w).
Proof.
  unfold outcome, after. rewrite install_spec. cbv zeta.
  destruct (fetch_all (server w) (map GET ASSETS)) as [ops|]; [|reflexivity].
  destruct (batch_put ops [] (old_bucket CACHE_NAME (caches w)));
    [reflexivity | discriminate].
Qed.

Lemma install_fetch_failure (CACHE_NAME : string) (ASSETS : list string) (w : World) :
  forallb (fetch_ok (server w)) ASSETS = false ->
  outcome (install CACHE_NAME ASSETS) w = Rejected TypeError.
Proof.
  intros Hbad. unfold outcome. rewrite install_spec. cbv zeta.
  pose proof (fetch_all_spec (server w) ASSETS) as Hf.
  destruct (fetch_all (server w) (map GET ASSETS)) as [ops|]; [|reflexivity].
  destruct Hf as (Hall & _). congruence.
Qed.

Lemma some_fetch_fails (srv : Request -> option Response) (us : list string) :
  (exists u, In u us /\ fetch_ok srv u = false) ->
  forallb (fetch_ok srv) us = false.
Proof.
  intros (u & Hin & Hbad). apply not_true_is_false. intros Hall.
  rewrite forallb_forall in Hall. specialize (Hall u Hin). congruence.
Qed.

Lemma install_fulfilled_entries
    (CACHE_NAME : string) (ASSETS : list string) (w : World) :
  fulfilled (outcome (install CACHE_NAME ASSETS) w) = true ->
  exists c,
    bucket CACHE_NAME (caches (after (install CACHE_NAME ASSETS) w)) = Some c /\
    forall u, In u ASSETS ->
      exists r, server w (GET u) = Some r /\
                query_cache (GET u) c = [(GET u, r)] /\
                cache_match (GET u) c = Some r.
Proof.
  intros Hok.
  destruct (install_fulfilled_inv _ _ _ Hok) as (ops & Hf & HN & Hk & HG & Hi).
  unfold after. rewrite Hi. simpl.
  eexists. split.
  - rewrite bucket_update_bucket, bucket_storage_open. reflexivity.
  - intros u Hin.
    pose proof (fetch_all_spec (server w) ASSETS) as Hs. rewrite Hf in Hs.
    destruct Hs as (_ & Hfst & Hsrv).
    destruct (fetched_entry _ _ _ u Hfst Hsrv Hin) as (r & Hr & Hop).
    exists r. split; [exact Hr|].
    assert (Hq : query_cache (GET u)
                   (remove_urls ASSETS (old_bucket CACHE_NAME (caches w)) ++ ops)
                 = [(GET u, r)]).
    { rewrite query_cache_app, query_cache_remove_urls by exact Hin.
      simpl. apply query_cache_ops; [now rewrite Hk | exact Hop]. }
    split; [exact Hq|]. unfold cache_match. now rewrite Hq.
Qed.

(** C1.  A fulfilled install leaves a bucket named [CACHE_NAME] that
    holds, for every locator of the asset list, exactly the response the
    network gave for it.  If the fetch of some locator fails (no
    response, or a status [addAll] refuses) the install is rejected; and
    a rejected install has written into no bucket: the storage is what
    [caches.open] alone made of it. *)
Theorem install_all_or_nothing
    (CACHE_NAME : string) (ASSETS : list string) (w : World) :
  (fulfilled (outcome (install CACHE_NAME ASSETS) w) = true ->
     exists c,
       bucket CACHE_NAME (caches (after (install CACHE_NAME ASSETS) w)) = Some c /\
       forall u, In u ASSETS ->
         exists r, server w (GET u) = Some r /\
                   query_cache (GET u) c = [(GET u, r)] /\
                   cache_match (GET u) c = Some r)
  /\
  ((exists u, In u ASSETS /\ fetch_ok (server w) u = false) ->
     outcome (install CACHE_NAME ASSETS) w = Rejected TypeError)
  /\
  (fulfilled (outcome (install CACHE_NAME ASSETS) w) = false ->
     caches (after (install CACHE_NAME ASSETS) w)
       = storage_open CACHE_NAME (caches w)).
Proof.
  split; [|split].
  - apply install_fulfilled_entries.
  - intros Hbad. apply install_fetch_failure. now apply some_fetch_fails.
  - apply install_rejected_caches.
Qed.

(** The deployed worker installs on a fresh origin; on the origin whose
    server lost [/blog.html] it is rejected and the only change to the
    storage is the empty bucket that [caches.open] created. *)
Lemma install_all_or_nothing_witness :
  (exists c,
     bucket Deployed.CACHE_NAME
       (caches (after (install Deployed.CACHE_NAME Deployed.ASSETS_TO_CACHE) fresh_world)) = Some c /\
     forall u, In u Deployed.ASSETS_TO_CACHE ->
       exists r, site_server (GET u) = Some r /\
                 query_cache (GET u) c = [(GET u, r)] /\
                 cache_match (GET u) c = Some r)
  /\ outcome (install Deployed.CACHE_NAME Deployed.ASSETS_TO_CACHE) broken_world = Rejected TypeError
  /\ caches (after (install Deployed.CACHE_NAME Deployed.ASSETS_TO_CACHE) broken_world)
       = [("meet-patel-portfolio-v0", [(GET "/", page "/old")]); (Deployed.CACHE_NAME, [])].
Proof.
  split; [|split].
  - apply (install_all_or_nothing Deployed.CACHE_NAME Deployed.ASSETS_TO_CACHE fresh_world).
    vm_compute. reflexivity.
  - apply (install_all_or_nothing Deployed.CACHE_NAME Deployed.ASSETS_TO_CACHE broken_world).
    exists "/blog.html". split; [vm_compute; tauto | vm_compute; reflexivity].
  - apply (install_all_or_nothing Deployed.CACHE_NAME Deployed.ASSETS_TO_CACHE broken_world).
    vm_compute. reflexivity.
Defined.

(** ** Installing again *)

Lemma install_fulfilled_intro (CACHE_NAME : string) (ASSETS : list string)
    (w : World) (ops : list (Request * Response)) :
  fetch_all (server w) (map GET ASSETS) = Some ops ->
  NoDup ASSETS ->
  outcome (install CACHE_NAME ASSETS) w = Fulfilled tt /\
  caches (after (install CACHE_NAME ASSETS) w)
    = installed_caches CACHE_NAME ASSETS ops (caches w).
Proof.
  intros Hf HN. unfold outcome, after. rewrite install_spec. cbv zeta.
  pose proof (fetch_all_spec (server w) ASSETS) as Hs. rewrite Hf in *.
  destruct Hs as (_ & Hfst & _).
  destruct (fetched_keys ops ASSETS Hfst) as [Hk HG].
  rewrite (batch_put_closed ops [] _ HG) by (simpl; now rewrite Hk).
  rewrite Hk. split; reflexivity.
Qed.

Lemma installed_caches_again (CACHE_NAME : string) (ASSETS : list string)
    (ops ops' : list (Request * Response)) (cs : CacheStorage) :
  keys_of ops = ASSETS ->
  installed_caches CACHE_NAME ASSETS ops'
    (installed_caches CACHE_NAME ASSETS ops cs)
  = installed_caches CACHE_NAME ASSETS ops' cs.
Proof.
  intros Hk. unfold installed_caches at 1.
  assert (Hold : old_bucket CACHE_NAME (installed_caches CACHE_NAME ASSETS ops cs)
                 = remove_urls ASSETS (old_bucket CACHE_NAME cs) ++ ops).
  { unfold old_bucket at 1, installed_caches.
    now rewrite bucket_update_bucket, bucket_storage_open. }
  rewrite Hold, remove_urls_app, remove_urls_idem.
  rewrite (remove_urls_keys ASSETS ops) by (rewrite Hk; apply incl_refl).
  rewrite app_nil_r.
  rewrite storage_open_has.
  - unfold installed_caches. apply update_bucket_twice.
  - unfold installed_caches.
    now rewrite has_bucket_update_bucket, has_bucket_storage_open.
Qed.

(** C7.  After a fulfilled install, installing again under the same
    version tag and asset list is fulfilled too and leaves the storage
    exactly as the first install left it; the bucket holds one entry per
    locator of the list; and a second install against a server whose
    content has changed ends with the bucket a single install against
    that server would have produced: entries are overwritten, never
    accumulated. *)
Theorem install_idempotent
    (CACHE_NAME : string) (ASSETS : list string) (w : World) :
  fulfilled (outcome (install CACHE_NAME ASSETS) w) = true ->
  fulfilled (outcome (install CACHE_NAME ASSETS)
               (after (install CACHE_NAME ASSETS) w)) = true /\
  caches (after (install CACHE_NAME ASSETS) (after (install CACHE_NAME ASSETS) w))
    = caches (after (install CACHE_NAME ASSETS) w) /\
  (forall c u,
     bucket CACHE_NAME
       (caches (after (install CACHE_NAME ASSETS) (after (install CACHE_NAME ASSETS) w)))
       = Some c ->
     In u ASSETS -> length (query_cache (GET u) c) = 1%nat) /\
  (forall srv',
     fulfilled (outcome (install CACHE_NAME ASSETS)
                  (set_server srv' (after (install CACHE_NAME ASSETS) w))) = true ->
     caches (after (install CACHE_NAME ASSETS)
               (set_server srv' (after (install CACHE_NAME ASSETS) w)))
     = caches (after (install CACHE_NAME ASSETS) (set_server srv' w))).
Proof.
  intros Hok.
  destruct (install_fulfilled_inv _ _ _ Hok) as (ops & Hf & HN & Hk & HG & Hi).
  destruct (install_fulfilled_intro CACHE_NAME ASSETS w ops Hf HN) as [_ Hc1].
  set (w1 := after (install CACHE_NAME ASSETS) w) in *.
  assert (Hsrv : server w1 = server w).
  { unfold w1, after. rewrite Hi. reflexivity. }
  assert (Hf1 : fetch_all (server w1) (map GET ASSETS) = Some ops)
    by now rewrite Hsrv.
  destruct (install_fulfilled_intro CACHE_NAME ASSETS w1 ops Hf1 HN) as [Ho2 Hc2].
  assert (Hsame : caches (after (install CACHE_NAME ASSETS) w1) = caches w1).
  { rewrite Hc2, Hc1. now apply installed_caches_again. }
  split; [now rewrite Ho2|]. split; [exact Hsame|]. split.
  - intros c u Hb Hin. rewrite Hsame in Hb.
    destruct (install_fulfilled_entries CACHE_NAME ASSETS w Hok)
      as (c0 & Hb0 & Hent). fold w1 in Hb0.
    assert (c0 = c) by congruence. subst c0.
    destruct (Hent u Hin) as (r & _ & Hq & _). now rewrite Hq.
  - intros srv' Hok'.
    destruct (install_fulfilled_inv _ _ _ Hok') as (ops' & Hf' & _ & _ & _ & _).
    assert (Hf0 : fetch_all (server (set_server srv' w)) (map GET ASSETS) = Some ops')
      by exact Hf'.
    destruct (install_fulfilled_intro CACHE_NAME ASSETS _ ops' Hf' HN) as [_ Hc'].
    destruct (install_fulfilled_intro CACHE_NAME ASSETS _ ops' Hf0 HN) as [_ Hc0].
    rewrite Hc', Hc0. simpl. rewrite Hc1. now apply installed_caches_again.
Qed.

Lemma install_idempotent_witness :
  caches (after (install Deployed.CACHE_NAME Deployed.ASSETS_TO_CACHE)
            (after (install Deployed.CACHE_NAME Deployed.ASSETS_TO_CACHE) fresh_world))
  = caches (after (install Deployed.CACHE_NAME Deployed.ASSETS_TO_CACHE) fresh_world).
Proof.
  destruct (install_idempotent Deployed.CACHE_NAME Deployed.ASSETS_TO_CACHE fresh_world)
    as (_ & Hsame & _); [vm_compute; reflexivity | exact Hsame].
Defined.

(** ** Activate *)

Lemma activate_unfold (CACHE_NAME : string) (w : World) :
  activate CACHE_NAME w
  = Promise_all (map (clear_stale CACHE_NAME) (map fst (caches w))) w.
Proof. reflexivity. Qed.

Lemma clear_stale_spec (CACHE_NAME n : string) (w : World) :
  exists v w',
    clear_stale CACHE_NAME n w = (Fulfilled v, w') /\
    caches w' = (if String.eqb n CACHE_NAME then caches w
                 else storage_delete n (caches w)) /\
    server w' = server w /\ net_log w' = net_log w.
Proof.
  unfold clear_stale. destruct (String.eqb n CACHE_NAME); simpl.
  - exists None, w. repeat split.
  - eexists _, _. unfold then_, console_log, caches_delete, resolve. simpl.
    repeat split.
Qed.

Lemma survives_cons (CACHE_NAME n : string) (names : list string)
    (cs : CacheStorage) :
  filter (survives CACHE_NAME names)
    (if String.eqb n CACHE_NAME then cs else storage_delete n cs)
  = filter (survives CACHE_NAME (n :: names)) cs.
Proof.
  unfold survives, storage_delete. simpl.
  destruct (String.eqb n CACHE_NAME); simpl; [reflexivity|].
  induction cs as [|b cs IH]; [reflexivity|].
  simpl. destruct (String.eqb n (fst b)); simpl; [exact IH|].
  destruct (negb (existsb _ names)); [now f_equal | exact IH].
Qed.

Lemma Promise_all_clear_stale (CACHE_NAME : string) (names : list string) :
  forall w, exists vs w',
    Promise_all (map (clear_stale CACHE_NAME) names) w = (Fulfilled vs, w') /\
    caches w' = filter (survives CACHE_NAME names) (caches w) /\
    server w' = server w /\ net_log w' = net_log w.
Proof.
  induction names as [|n names IH]; intros w.
  - exists [], w. simpl. repeat split.
    unfold survives. simpl. induction (caches w) as [|b cs IHcs];
      [reflexivity | simpl; now f_equal].
  - destruct (clear_stale_spec CACHE_NAME n w) as (v & w1 & E1 & Hc1 & Hs1 & Hn1).
    destruct (IH w1) as (vs & w2 & E2 & Hc2 & Hs2 & Hn2).
    exists (v :: vs), w2. simpl. rewrite E1, E2.
    split; [reflexivity|]. split; [|split; congruence].
    rewrite Hc2, Hc1. apply survives_cons.
Qed.

Lemma activate_caches (CACHE_NAME : string) (w : World) :
  fulfilled (outcome (activate CACHE_NAME) w) = true /\
  caches (after (activate CACHE_NAME) w)
    = filter (fun b => String.eqb (fst b) CACHE_NAME) (caches w) /\
  server (after (activate CACHE_NAME) w) = server w /\
  net_log (after (activate CACHE_NAME) w) = net_log w.
Proof.
  unfold outcome, after. rewrite activate_unfold.
  destruct (Promise_all_clear_stale CACHE_NAME (map fst (caches w)) w)
    as (vs & w' & E & Hc & Hs & Hn).
  rewrite E. simpl. repeat split; try assumption.
  rewrite Hc. apply filter_ext_in. intros b Hb. unfold survives.
  destruct (String.eqb (fst b) CACHE_NAME) eqn:Eb.
  - apply String.eqb_eq in Eb. apply negb_true_iff, not_true_is_false.
    intros Hex. apply existsb_exists in Hex. destruct Hex as (n & _ & Hn').
    apply andb_true_iff in Hn'. destruct Hn' as [Hne Heq].
    apply String.eqb_eq in Heq. subst n. rewrite Eb in Hne.
    rewrite String.eqb_refl in Hne. discriminate.
  - apply negb_false_iff, existsb_exists. exists (fst b). split.
    + now apply in_map.
    + now rewrite Eb, String.eqb_refl.
Qed.

Lemma bucket_filter_current (CACHE_NAME : string) (cs : CacheStorage) :
  bucket CACHE_NAME (filter (fun b => String.eqb (fst b) CACHE_NAME) cs)
  = bucket CACHE_NAME cs.
Proof.
  induction cs as [|[n c] cs IH]; [reflexivity|]. simpl.
  rewrite (String.eqb_sym n CACHE_NAME).
  destruct (String.eqb CACHE_NAME n) eqn:E; simpl; [now rewrite E | exact IH].
Qed.

Lemma names_filter_current (CACHE_NAME n : string) (cs : CacheStorage) :
  In n (map fst (filter (fun b => String.eqb (fst b) CACHE_NAME) cs)) ->
  n = CACHE_NAME.
Proof.
  intros Hin. apply in_map_iff in Hin. destruct Hin as (b & <- & Hb).
  apply filter_In in Hb. now apply String.eqb_eq.
Qed.

Lemma bucket_absent (n : string) (cs : CacheStorage) :
  ~ In n (map fst cs) -> bucket n cs = None /\ has_bucket n cs = false.
Proof.
  intros Hn. rewrite has_bucket_bucket.
  assert (H : bucket n cs = None); [|now rewrite H].
  induction cs as [|[n0 c] cs IH]; [reflexivity|]. simpl in *.
  destruct (String.eqb n n0) eqn:E.
  - apply String.eqb_eq in E. exfalso. apply Hn. left. now symmetry.
  - apply IH. intros H. apply Hn. now right.
Qed.

Lemma install_has_bucket (CACHE_NAME : string) (ASSETS : list string) (w : World) :
  has_bucket CACHE_NAME (caches (after (install CACHE_NAME ASSETS) w)) = true.
Proof.
  unfold after. rewrite install_spec. cbv zeta.
  destruct (fetch_all (server w) (map GET ASSETS)) as [ops|];
    [|apply has_bucket_storage_open].
  destruct (batch_put ops [] (old_bucket CACHE_NAME (caches w)));
    [apply has_bucket_storage_open|].
  simpl. rewrite has_bucket_update_bucket. apply has_bucket_storage_open.
Qed.

(** C2.  The activate handler is fulfilled on every storage; afterwards
    no bucket under a name other than [CACHE_NAME] exists, every name
    [caches.keys()] would still report is [CACHE_NAME], and the bucket
    of that name is the one that was there before, untouched.  When the
    handler runs where the lifecycle runs it, after this version's
    install, that bucket is there and so is the one that remains. *)
Theorem activate_keeps_only_current (CACHE_NAME : string) (w : World) :
  fulfilled (outcome (activate CACHE_NAME) w) = true /\
  (forall n, n <> CACHE_NAME ->
     has_bucket n (caches (after (activate CACHE_NAME) w)) = false /\
     bucket n (caches (after (activate CACHE_NAME) w)) = None) /\
  (forall n, In n (map fst (caches (after (activate CACHE_NAME) w))) ->
     n = CACHE_NAME) /\
  bucket CACHE_NAME (caches (after (activate CACHE_NAME) w))
    = bucket CACHE_NAME (caches w) /\
  has_bucket CACHE_NAME (caches (after (activate CACHE_NAME) w))
    = has_bucket CACHE_NAME (caches w) /\
  (forall ASSETS w0,
     w = after (install CACHE_NAME ASSETS) w0 ->
     has_bucket CACHE_NAME (caches (after (activate CACHE_NAME) w)) = true).
Proof.
  destruct (activate_caches CACHE_NAME w) as (Hok & Hc & _ & _).
  rewrite Hc. split; [exact Hok|].
  assert (Hhas : has_bucket CACHE_NAME
                   (filter (fun b => String.eqb (fst b) CACHE_NAME) (caches w))
                 = has_bucket CACHE_NAME (caches w))
    by now rewrite !has_bucket_bucket, bucket_filter_current.
  split; [|split; [|split; [|split]]].
  - intros n Hne.
    destruct (bucket_absent n (filter (fun b => String.eqb (fst b) CACHE_NAME) (caches w)))
      as [Hb Hh]; [|now split].
    intros Hin. apply names_filter_current in Hin. contradiction.
  - intros n. apply names_filter_current.
  - apply bucket_filter_current.
  - exact Hhas.
  - intros ASSETS w0 ->. rewrite Hhas. apply install_has_bucket.
Qed.

Lemma activate_keeps_only_current_witness :
  map fst (caches (after (activate Deployed.CACHE_NAME)
                     (after (install Deployed.CACHE_NAME Deployed.ASSETS_TO_CACHE)
                        broken_world)))
    = [Deployed.CACHE_NAME]
  /\ bucket "meet-patel-portfolio-v0"
       (caches (after (activate Deployed.CACHE_NAME)
                  (after (install Deployed.CACHE_NAME Deployed.ASSETS_TO_CACHE)
                     broken_world)))
     = None
  /\ has_bucket Deployed.CACHE_NAME
       (caches (after (activate Deployed.CACHE_NAME)
                  (after (install Deployed.CACHE_NAME Deployed.ASSETS_TO_CACHE)
                     fresh_world)))
     = true.
Proof.
  split; [vm_compute; reflexivity|]. split.
  - apply (activate_keeps_only_current Deployed.CACHE_NAME
             (after (install Deployed.CACHE_NAME Deployed.ASSETS_TO_CACHE) broken_world)).
    vm_compute. discriminate.
  - destruct (activate_keeps_only_current Deployed.CACHE_NAME
                (after (install Deployed.CACHE_NAME Deployed.ASSETS_TO_CACHE) fresh_world))
      as (_ & _ & _ & _ & _ & Hkept).
    apply (Hkept Deployed.ASSETS_TO_CACHE fresh_world). reflexivity.
Defined.

(** ** Fetch *)

Lemma fetch_handler_spec (q : Request) (w : World) :
  fetch_handler q w =
    match storage_match q (caches w) with
    | Some r => (Fulfilled r, w)
    | None => fetch q w
    end.
Proof.
  unfold fetch_handler, respondWith, then_, caches_match. simpl.
  destruct (storage_match q (caches w)); reflexivity.
Qed.

Lemma storage_match_app (q : Request) (cs1 cs2 : CacheStorage) :
  storage_match q (cs1 ++ cs2) =
    match storage_match q cs1 with
    | Some r => Some r
    | None => storage_match q cs2
    end.
Proof.
  induction cs1 as [|[n c] cs1 IH]; simpl; [reflexivity|].
  destruct (cache_match q c); [reflexivity | exact IH].
Qed.

Lemma storage_match_storage_open (q : Request) (name : string) (cs : CacheStorage) :
  storage_match q (storage_open name cs) = storage_match q cs.
Proof.
  unfold storage_open. destruct (has_bucket name cs); [reflexivity|].
  rewrite storage_match_app. simpl. now destruct (storage_match q cs).
Qed.

Lemma storage_match_of_bucket (q : Request) (name : string) (cs : CacheStorage)
    (c : Cache) (r : Response) :
  bucket name cs = Some c -> cache_match q c = Some r ->
  exists r', storage_match q cs = Some r'.
Proof.
  induction cs as [|[n c0] cs IH]; intros Hb Hm; [discriminate|]. simpl in *.
  destruct (cache_match q c0) as [r0|] eqn:E0; [now exists r0|].
  destruct (String.eqb name n); [|now apply IH].
  injection Hb as ->. congruence.
Qed.

Lemma storage_match_filter_current (q : Request) (name : string)
    (cs : CacheStorage) (c : Cache) (r : Response) :
  bucket name cs = Some c -> cache_match q c = Some r ->
  storage_match q (filter (fun b => String.eqb (fst b) name) cs) = Some r.
Proof.
  induction cs as [|[n c0] cs IH]; intros Hb Hm; [discriminate|]. simpl in *.
  rewrite (String.eqb_sym n name).
  destruct (String.eqb name n); simpl.
  - injection Hb as ->. now rewrite Hm.
  - now apply IH.
Qed.

Lemma cache_match_sound (q : Request) (c : Cache) (r : Response) :
  cache_match q c = Some r ->
  exists e, In e c /\ method q = "GET" /\ url q = url (fst e) /\ snd e = r.
Proof.
  unfold cache_match. destruct (query_cache q c) as [|e l] eqn:E; [discriminate|].
  intros [= <-]. exists e.
  assert (Hin : In e (query_cache q c)) by (rewrite E; now left).
  apply filter_In in Hin. destruct Hin as [Hin Hm].
  apply request_matches_exact in Hm. tauto.
Qed.

Lemma cache_match_none (q : Request) (c : Cache) :
  (forall e, In e c -> request_matches q (fst e) = false) ->
  cache_match q c = None.
Proof.
  intros H. unfold cache_match, query_cache.
  destruct (filter _ c) as [|e l] eqn:E; [reflexivity|].
  assert (Hin : In e (filter (fun e => request_matches q (fst e)) c))
    by (rewrite E; now left).
  apply filter_In in Hin. destruct Hin as [Hin Hm].
  rewrite (H e Hin) in Hm. discriminate.
Qed.

Lemma storage_match_sound (q : Request) (cs : CacheStorage) (r : Response) :
  storage_match q cs = Some r ->
  exists n c e, In (n, c) cs /\ In e c /\
                method q = "GET" /\ url q = url (fst e) /\ snd e = r.
Proof.
  induction cs as [|[n c] cs IH]; intros H; [discriminate|]. simpl in H.
  destruct (cache_match q c) as [r0|] eqn:E.
  - injection H as ->. destruct (cache_match_sound q c r E) as (e & He & Hrest).
    exists n, c, e. split; [now left | now split].
  - destruct (IH H) as (n' & c' & e & Hin & Hrest).
    exists n', c', e. split; [now right | exact Hrest].
Qed.

Lemma storage_match_none (q : Request) (cs : CacheStorage) :
  (forall n c e, In (n, c) cs -> In e c -> request_matches q (fst e) = false) ->
  storage_match q cs = None.
Proof.
  induction cs as [|[n c] cs IH]; intros H; [reflexivity|]. simpl.
  rewrite cache_match_none.
  - apply IH. intros n' c' e Hin. apply (H n' c' e). now right.
  - intros e He. apply (H n c e); [now left | exact He].
Qed.

(** C3.  After a fulfilled install followed by activation, a request
    for any locator of the asset list is answered with the very response
    the install stored for it, and the world after the answer is the
    world before it: nothing was sent to the network.  This stays true
    when other buckets are created later ([later]).  Already right after
    the install the request is a cache hit answered without the network. *)
Theorem cached_asset_served_without_network
    (CACHE_NAME : string) (ASSETS : list string) (w : World)
    (u : string) (later : CacheStorage) :
  fulfilled (outcome (install CACHE_NAME ASSETS) w) = true ->
  In u ASSETS ->
  exists r,
    server w (GET u) = Some r /\
    (forall w3,
       caches w3 = caches (after (activate CACHE_NAME)
                             (after (install CACHE_NAME ASSETS) w)) ++ later ->
       fetch_handler (GET u) w3 = (Fulfilled r, w3) /\
       net_log (after (fetch_handler (GET u)) w3) = net_log w3) /\
    (exists r',
       fetch_handler (GET u) (after (install CACHE_NAME ASSETS) w)
         = (Fulfilled r', after (install CACHE_NAME ASSETS) w)).
Proof.
  intros Hok Hin.
  destruct (install_fulfilled_entries CACHE_NAME ASSETS w Hok) as (c & Hb & Hent).
  destruct (Hent u Hin) as (r & Hr & _ & Hm).
  exists r. split; [exact Hr|]. split.
  - intros w3 Hc.
    assert (E : fetch_handler (GET u) w3 = (Fulfilled r, w3)).
    { rewrite fetch_handler_spec, Hc.
      destruct (activate_caches CACHE_NAME (after (install CACHE_NAME ASSETS) w))
        as (_ & Ha & _).
      rewrite Ha, storage_match_app.
      now rewrite (storage_match_filter_current _ _ _ c r Hb Hm). }
    split; [exact E|]. unfold after. now rewrite E.
  - destruct (storage_match_of_bucket _ _ _ c r Hb Hm) as (r' & Hr').
    exists r'. now rewrite fetch_handler_spec, Hr'.
Qed.

Lemma cached_asset_served_without_network_witness :
  exists r,
    site_server (GET "/about.html") = Some r /\
    fetch_handler (GET "/about.html")
      (set_server offline
         (after (activate Deployed.CACHE_NAME)
            (after (install Deployed.CACHE_NAME Deployed.ASSETS_TO_CACHE) fresh_world)))
    = (Fulfilled r,
       set_server offline
         (after (activate Deployed.CACHE_NAME)
            (after (install Deployed.CACHE_NAME Deployed.ASSETS_TO_CACHE) fresh_world))).
Proof.
  destruct (cached_asset_served_without_network
              Deployed.CACHE_NAME Deployed.ASSETS_TO_CACHE fresh_world "/about.html" [])
    as (r & Hr & Hhit & _).
  - vm_compute. reflexivity.
  - vm_compute. tauto.
  - exists r. split; [exact Hr|].
    apply Hhit. rewrite app_nil_r. reflexivity.
Defined.

(** C4, as stated, fails.  While the deployed worker is active and the
    next version waits, the current bucket does not hold [/resume.pdf],
    yet the deployed worker's fetch handler answers the request from the
    cache, out of the next version's bucket, and sends nothing to the
    network. *)
Lemma lookup_not_confined_to_current_bucket :
  map fst (caches waiting_world) = [Deployed.CACHE_NAME; "meet-patel-portfolio-v2"] /\
  (exists c, bucket Deployed.CACHE_NAME (caches waiting_world) = Some c /\
             cache_match (GET "/resume.pdf") c = None) /\
  fetch_handler (GET "/resume.pdf") waiting_world
    = (Fulfilled (page "/resume.pdf"), waiting_world) /\
  fetch_handler (GET "/resume.pdf") waiting_world
    <> fetch (GET "/resume.pdf") waiting_world.
Proof.
  split; [vm_compute; reflexivity|]. split; [|split].
  - eexists. split; vm_compute; reflexivity.
  - rewrite fetch_handler_spec. vm_compute. reflexivity.
  - rewrite fetch_handler_spec.
    replace (storage_match (GET "/resume.pdf") (caches waiting_world))
      with (Some (page "/resume.pdf")) by (vm_compute; reflexivity).
    unfold fetch. intros H. injection H as H _. revert H.
    vm_compute. discriminate.
Qed.

Lemma storage_match_with_fragment (f : string) (q : Request) (cs : CacheStorage) :
  storage_match (with_fragment f q) cs = storage_match q cs.
Proof.
  induction cs as [|[n c] cs IH]; [reflexivity|]. simpl.
  change (cache_match (with_fragment f q) c) with (cache_match q c).
  now rewrite IH.
Qed.

(** C4, amended.  The handler's lookup is [caches.match]: it goes through
    every bucket of the storage in creation order, and the fragment of
    the request's URL plays no part in it.  An answer from the cache
    comes from an entry, in some bucket, whose URL is the request's URL
    (fragment excluded), for a GET request; a request that no entry of
    any bucket matches in this sense is handed to the network; and when
    the storage holds a single bucket the lookup is the lookup in that
    bucket. *)
Theorem fetch_lookup_all_buckets (w : World) (q : Request) :
  fetch_handler q w =
    match storage_match q (caches w) with
    | Some r => (Fulfilled r, w)
    | None => fetch q w
    end
  /\
  (forall f, storage_match (with_fragment f q) (caches w)
             = storage_match q (caches w))
  /\
  (forall r, storage_match q (caches w) = Some r ->
     exists n c e, In (n, c) (caches w) /\ In e c /\
                   method q = "GET" /\ url q = url (fst e) /\ snd e = r)
  /\
  ((forall n c e, In (n, c) (caches w) -> In e c ->
      method q <> "GET" \/ url q <> url (fst e)) ->
   fetch_handler q w = fetch q w)
  /\
  (forall name c, caches w = [(name, c)] ->
     storage_match q (caches w) = cache_match q c).
Proof.
  split; [apply fetch_handler_spec|].
  split; [intros f; apply storage_match_with_fragment|].
  split; [|split].
  - intros r. apply storage_match_sound.
  - intros Hno. rewrite fetch_handler_spec, storage_match_none; [reflexivity|].
    intros n c e Hin He. apply not_true_is_false. intros Hm.
    apply request_matches_exact in Hm. destruct (Hno n c e Hin He); tauto.
  - intros name c ->. simpl. now destruct (cache_match q c).
Qed.

(** A request for a URL no bucket holds goes to the network; a request
    for a URL the installed worker holds is answered from the cache also
    when it carries a fragment, here with the network down. *)
Lemma fetch_lookup_all_buckets_witness :
  fetch_handler (GET "/cv.pdf") stale_world = fetch (GET "/cv.pdf") stale_world /\
  fetch_handler (new_Request "/index.html#top") (set_server offline serving_world)
    = (Fulfilled (page "/index.html"), set_server offline serving_world).
Proof.
  split.
  - apply (fetch_lookup_all_buckets stale_world (GET "/cv.pdf")).
    intros n c e Hin He. right.
    simpl in Hin. destruct Hin as [[= <- <-] | [[= <- <-] | []]].
    + destruct He as [<- | []]. simpl. discriminate.
    + destruct He.
  - destruct (fetch_lookup_all_buckets (set_server offline serving_world)
                (GET "/index.html")) as (_ & Hfrag & _).
    rewrite fetch_handler_spec.
    change (new_Request "/index.html#top")
      with (with_fragment "top" (GET "/index.html")).
    rewrite Hfrag. vm_compute. reflexivity.
Defined.

(** C5.  The fetch handler leaves the cache storage as it found it,
    whatever the request; on a miss the answer is the network's answer,
    whatever it is, and the request is the one thing added to the
    network log. *)
Theorem fetch_never_writes (w : World) (q : Request) :
  caches (after (fetch_handler q) w) = caches w /\
  (storage_match q (caches w) = None ->
     outcome (fetch_handler q) w
       = match server w q with
         | Some r => Fulfilled r
         | None => Rejected TypeError
         end /\
     net_log (after (fetch_handler q) w) = net_log w ++ [q]).
Proof.
  unfold after, outcome. rewrite fetch_handler_spec.
  destruct (storage_match q (caches w)) as [r|]; split;
    try reflexivity; try discriminate.
  intros _. split; reflexivity.
Qed.

Lemma fetch_never_writes_witness :
  outcome (fetch_handler (GET "/cv.pdf")) stale_world = Rejected TypeError /\
  net_log (after (fetch_handler (GET "/cv.pdf")) stale_world) = [GET "/cv.pdf"].
Proof.
  apply (fetch_never_writes stale_world (GET "/cv.pdf")).
  vm_compute. reflexivity.
Defined.

(** ** A failed update *)

Lemma bucket_storage_open_kept (name n : string) (cs : CacheStorage) (c : Cache) :
  bucket n cs = Some c -> bucket n (storage_open name cs) = Some c.
Proof.
  intros H. unfold storage_open. destruct (has_bucket name cs); [exact H|].
  now rewrite bucket_app, H.
Qed.

Lemma update_rejected (new : Version) (reg : Registration) :
  fulfilled (outcome (install (cache_name new) (assets new)) (world reg)) = false ->
  active (update new reg) = active reg /\
  world (update new reg) = after (install (cache_name new) (assets new)) (world reg).
Proof.
  unfold update, outcome, after.
  destruct (install (cache_name new) (assets new) (world reg)) as [[v|e] w1];
    simpl; [discriminate|]. intros _. split; reflexivity.
Qed.

Lemma install_server (CACHE_NAME : string) (ASSETS : list string) (w : World) :
  server (after (install CACHE_NAME ASSETS) w) = server w.
Proof.
  unfold after. rewrite install_spec. cbv zeta.
  destruct (fetch_all (server w) (map GET ASSETS)) as [ops|]; [|reflexivity].
  destruct (batch_put ops [] (old_bucket CACHE_NAME (caches w))); reflexivity.
Qed.

(** C6.  When the fetch of some asset of the new version fails, the
    update leaves the registration's active worker as it was; every
    bucket that existed keeps its contents; the cache lookup of every
    request gives what it gave before; and so every fetch is answered as
    it was answered before the update was tried. *)
Theorem failed_install_keeps_previous_version (new : Version) (reg : Registration) :
  (exists u, In u (assets new) /\ fetch_ok (server (world reg)) u = false) ->
  active (update new reg) = active reg /\
  (forall n c, bucket n (caches (world reg)) = Some c ->
               bucket n (caches (world (update new reg))) = Some c) /\
  (forall q, storage_match q (caches (world (update new reg)))
             = storage_match q (caches (world reg))) /\
  (forall q, outcome (serve (update new reg) q) (world (update new reg))
             = outcome (serve reg q) (world reg)).
Proof.
  intros Hbad.
  assert (Hrej : fulfilled (outcome (install (cache_name new) (assets new)) (world reg))
                 = false).
  { rewrite install_fetch_failure; [reflexivity | now apply some_fetch_fails]. }
  destruct (update_rejected new reg Hrej) as [Ha Hw].
  pose proof (install_rejected_caches _ _ _ Hrej) as Hc.
  rewrite <- Hw in Hc.
  assert (Hm : forall q, storage_match q (caches (world (update new reg)))
                         = storage_match q (caches (world reg))).
  { intros q. rewrite Hc. apply storage_match_storage_open. }
  split; [exact Ha|]. split; [|split; [exact Hm|]].
  - intros n c Hb. rewrite Hc. now apply bucket_storage_open_kept.
  - intros q. unfold serve, outcome. rewrite Ha.
    assert (Hs : server (world (update new reg)) = server (world reg))
      by (rewrite Hw; apply install_server).
    destruct (active reg).
    + rewrite !fetch_handler_spec, Hm.
      destruct (storage_match q (caches (world reg))); [reflexivity|].
      unfold fetch. simpl. now rewrite Hs.
    + unfold fetch. simpl. now rewrite Hs.
Qed.

Lemma failed_install_keeps_previous_version_witness :
  active (update deployed broken_registration) = Some v0 /\
  outcome (serve (update deployed broken_registration) (GET "/"))
    (world (update deployed broken_registration))
  = Fulfilled (page "/old").
Proof.
  destruct (failed_install_keeps_previous_version deployed broken_registration)
    as (Ha & _ & _ & Hserve).
  - exists "/blog.html". split; [vm_compute; tauto | vm_compute; reflexivity].
  - split; [exact Ha|]. rewrite Hserve. vm_compute. reflexivity.
Defined.

End SWProofs.

(* ================================================================== *)
(** * Properties of the market feed *)
(* ================================================================== *)

Module FeedProofs.
Import Feed.
Local Open Scope list_scope.
Local Open Scope Q_scope.
Local Open Scope eff_scope.

(** ** Auxiliary definitions *)

(** The value the walk gives after [lastValue] in environment [e]. *)
Definition next_value (lastValue : Q) (e : Env) : Q :=
  Qmax 0 (lastValue + (random e (drawn e) - 0.5) * 5).

(** The initialisation effect, spelled out on the parts the chart and
    the portfolio depend on. *)
Definition init_point (t0 : Z) (i : nat) : Eff ChartPoint :=
  r <- Math_random ;;
  ret {| time := (t0 - (50 - Z.of_nat i) * 1000)%Z; value := 100 + r * 20 |}.

(** What a mounted component maintains: the series is non-empty with no
    negative value, and the portfolio value stays tied to the last chart
    value. *)
Definition tracks (s : AppState) : Prop :=
  Forall (fun p => 0 <= value p) (chartData s) /\
  exists lastPoint,
    last_point (chartData s) = Some lastPoint /\
    112500 <= portfolioValue s - 100 * value lastPoint.

(** ** Concrete states *)

Definition steady (r : Q) : Env :=
  {| random := fun _ => r; drawn := O; now := 0%Z |}.

(** The draws that take the portfolio value to its floor: the upper end
    for the fifty initial chart points, zero from then on. *)
Definition high_then_zero : Env :=
  {| random := fun i => if (i <? 50)%nat then 1 else 0; drawn := O; now := 0%Z |}.

Definition two_points : AppState :=
  {| chartData := [ {| time := 0%Z; value := 100 |}; {| time := 1000%Z; value := 101 |} ];
     sectors := []; tickerData := []; portfolioValue := 124500.00 |}.


(** ** Effects *)

Lemma bind_eval {A B} (m : Eff A) (f : A -> Eff B) (e : Env) :
  bind m f e = f (fst (m e)) (snd (m e)).
Proof. unfold bind. now destruct (m e). Qed.


Lemma map_eff_source {A B} (f : A -> Eff B) (l : list A) :
  (forall a e, random (snd (f a e)) = random e) ->
  forall e, random (snd (map_eff f l e)) = random e.
Proof.
  intros Hf. induction l as [|a l IH]; intros e; [reflexivity|].
  simpl. rewrite !bind_eval. simpl. now rewrite IH, Hf.
Qed.

Lemma map_eff_length {A B} (f : A -> Eff B) (l : list A) :
  forall e, length (fst (map_eff f l e)) = length l.
Proof.
  induction l as [|a l IH]; intros e; [reflexivity|].
  simpl. rewrite !bind_eval. simpl. now rewrite IH.
Qed.


Lemma unit_draws_same_source (e e' : Env) :
  random e' = random e -> unit_draws e -> unit_draws e'.
Proof. unfold unit_draws. intros ->. auto. Qed.

Lemma map_eff_Forall {A B} (f : A -> Eff B) (P : B -> Prop) (l : list A) :
  (forall a e, random (snd (f a e)) = random e) ->
  (forall a e, unit_draws e -> P (fst (f a e))) ->
  forall e, unit_draws e -> Forall P (fst (map_eff f l e)).
Proof.
  intros Hsrc HP. induction l as [|a l IH]; intros e He; [constructor|].
  simpl. rewrite !bind_eval. simpl. constructor.
  - now apply HP.
  - apply IH. apply (unit_draws_same_source e); [apply Hsrc | exact He].
Qed.

(** ** The random walk *)

Lemma generateNextPoint_eval (prevPrice : Q) (e : Env) :
  generateNextPoint prevPrice e =
    (Qmax 0 (prevPrice + (random e (drawn e) - 0.5) * 5),
     {| random := random e; drawn := S (drawn e); now := now e |}).
Proof. reflexivity. Qed.

(** C8.  For every previous value and every draw in [0, 1), the next
    point is not below zero and is the clamp at zero of the previous
    value plus a change of magnitude at most 2.5.  From a chart value
    the next point is at most the previous value plus 2.5: chart values
    are never negative ([chart_values_nonneg] below), and the bound needs
    no more than a previous value of at least -2.5. *)
Theorem generateNextPoint_bounds (prevPrice : Q) (e : Env) :
  0 <= random e (drawn e) -> random e (drawn e) < 1 ->
  0 <= fst (generateNextPoint prevPrice e) /\
  (exists change,
     Qabs change <= 2.5 /\
     fst (generateNextPoint prevPrice e) == Qmax 0 (prevPrice + change)) /\
  (-2.5 <= prevPrice ->
     fst (generateNextPoint prevPrice e) <= prevPrice + 2.5).
Proof.
  intros H0 H1. rewrite generateNextPoint_eval. simpl.
  split; [apply Q.le_max_l|]. split.
  - exists ((random e (drawn e) - 0.5) * 5). split; [|reflexivity].
    apply Qabs_Qle_condition. split; lra.
  - intros Hp. apply Q.max_lub; lra.
Qed.

Lemma generateNextPoint_bounds_witness :
  0 <= fst (generateNextPoint 100 (steady 0.25)) /\
  fst (generateNextPoint 100 (steady 0.25)) <= 100 + 2.5.
Proof.
  destruct (generateNextPoint_bounds 100 (steady 0.25)) as (Hlo & _ & Hhi).
  - simpl. lra.
  - simpl. lra.
  - split; [exact Hlo | apply Hhi; lra].
Defined.

(** ** The chart series *)

Lemma last_point_none (l : list ChartPoint) : last_point l = None <-> l = [].
Proof.
  unfold last_point. rewrite nth_error_None. destruct l as [|p l]; simpl.
  - split; [reflexivity | lia].
  - split; [lia | discriminate].
Qed.

Lemma last_point_snoc (l : list ChartPoint) (p : ChartPoint) :
  last_point (l ++ [p]) = Some p.
Proof.
  unfold last_point. rewrite length_app. simpl.
  replace (Nat.pred (length l + 1)) with (length l) by lia.
  rewrite nth_error_app2 by lia. now rewrite Nat.sub_diag.
Qed.

Lemma last_point_In (l : list ChartPoint) (p : ChartPoint) :
  last_point l = Some p -> In p l.
Proof. unfold last_point. apply nth_error_In. Qed.

Lemma slice1_snoc_length {A} (l : list A) (a : A) :
  l <> [] -> length (slice1 l ++ [a]) = length l.
Proof.
  destruct l as [|x l]; [congruence|]. intros _.
  unfold slice1. rewrite length_app. simpl. lia.
Qed.

(** One tick on a non-empty series, spelled out. *)
Lemma tick_some (s : AppState) (e : Env) (lastPoint : ChartPoint) :
  last_point (chartData s) = Some lastPoint ->
  exists secs ticks e',
    tick s e =
      (Some {| chartData :=
                 slice1 (chartData s)
                 ++ [{| time := now e; value := next_value (value lastPoint) e |}];
               sectors := secs; tickerData := ticks;
               portfolioValue :=
                 portfolioValue s
                 + (next_value (value lastPoint) e - value lastPoint) * 100 |},
       e') /\
    random e' = random e.
Proof.
  intros Hlast. unfold tick. rewrite Hlast.
  rewrite bind_eval, generateNextPoint_eval. simpl fst. simpl snd.
  rewrite bind_eval. simpl fst. simpl snd.
  rewrite bind_eval.
  match goal with |- context [map_eff ?f (sectors s) ?e1] =>
    pose proof (map_eff_source f (sectors s) (fun a e0 => eq_refl) e1) as Hs1;
    destruct (map_eff f (sectors s) e1) as [secs e2] end.
  simpl fst. simpl snd. rewrite bind_eval.
  match goal with |- context [map_eff ?f (tickerData s) ?e1] =>
    pose proof (map_eff_source f (tickerData s) (fun a e0 => eq_refl) e1) as Hs2;
    destruct (map_eff f (tickerData s) e1) as [ticks e3] end.
  simpl in *. exists secs, ticks, e3. split; [reflexivity | congruence].
Qed.

Lemma tick_none (s : AppState) (e : Env) :
  chartData s = [] -> tick s e = (None, e).
Proof.
  intros H. unfold tick. now rewrite (proj2 (last_point_none _) H).
Qed.

Lemma init_effect_spec (s : AppState) (e : Env) :
  chartData (fst (init_effect s e)) = fst (Array_from 50 (init_point (now e)) e) /\
  portfolioValue (fst (init_effect s e)) = portfolioValue s /\
  random (snd (init_effect s e)) = random e.
Proof.
  unfold init_effect. rewrite bind_eval. unfold Date_now. cbn [fst snd].
  rewrite bind_eval. fold (init_point (now e)).
  assert (Hs0 : random (snd (Array_from 50 (init_point (now e)) e)) = random e)
    by (apply map_eff_source; reflexivity).
  destruct (Array_from 50 (init_point (now e)) e) as [initData e1].
  cbn [fst snd] in *. rewrite bind_eval.
  match goal with |- context [map_eff ?f SECTORS ?e1] =>
    pose proof (map_eff_source f SECTORS (fun a e0 => eq_refl) e1) as Hs1;
    destruct (map_eff f SECTORS e1) as [secs e2] end.
  cbn [fst snd] in *. rewrite bind_eval.
  match goal with |- context [map_eff ?f TICKERS ?e1] =>
    pose proof (map_eff_source f TICKERS (fun a e0 => eq_refl) e1) as Hs2;
    destruct (map_eff f TICKERS e1) as [ticks e3] end.
  cbn [fst snd] in *. unfold ret. cbn [fst snd chartData portfolioValue].
  repeat split. congruence.
Qed.

Lemma init_chart_length (e : Env) :
  length (chartData (fst (init_effect initial_state e))) = 50%nat.
Proof.
  destruct (init_effect_spec initial_state e) as (-> & _).
  unfold Array_from. now rewrite map_eff_length, length_seq.
Qed.

Lemma init_chart_values (e : Env) :
  unit_draws e ->
  Forall (fun p => 100 <= value p /\ value p <= 120)
    (chartData (fst (init_effect initial_state e))).
Proof.
  intros He. destruct (init_effect_spec initial_state e) as (-> & _).
  unfold Array_from. apply map_eff_Forall; [reflexivity | | exact He].
  intros i e0 He0. simpl. destruct (He0 (drawn e0)). split; lra.
Qed.

Lemma run_length (n : nat) :
  forall (s : AppState) (e : Env),
    chartData s <> [] ->
    exists s', fst (run n s e) = Some s' /\
               length (chartData s') = length (chartData s).
Proof.
  induction n as [|n IH]; intros s e Hne.
  - exists s. split; reflexivity.
  - destruct (last_point (chartData s)) as [lp|] eqn:El;
      [|apply last_point_none in El; contradiction].
    destruct (tick_some s (elapse 1000 e) lp El) as (secs & ticks & e' & Et & _).
    simpl. rewrite Et.
    match goal with |- context [run n ?s1 e'] =>
      destruct (IH s1 e') as (s' & Hr & Hl) end.
    + simpl. intros H. apply app_eq_nil in H. destruct H; discriminate.
    + exists s'. split; [exact Hr|]. rewrite Hl. simpl.
      now apply slice1_snoc_length.
Qed.

(** C9.  On a non-empty series a tick succeeds; the new series is the
    old one without its first point, followed by one new point, so its
    length is the old length.  On the empty series the tick throws.
    Initialisation creates 50 points, and after any number of ticks of a
    mounted component the series still has 50 points. *)
Theorem tick_keeps_series_length (s : AppState) (e : Env) :
  (chartData s <> [] ->
     exists s' p,
       fst (tick s e) = Some s' /\
       chartData s' = slice1 (chartData s) ++ [p] /\
       length (chartData s') = length (chartData s)) /\
  (chartData s = [] -> fst (tick s e) = None) /\
  length (chartData (fst (init_effect initial_state e))) = 50%nat /\
  (forall n, exists s',
     fst (session n e) = Some s' /\ length (chartData s') = 50%nat).
Proof.
  split; [|split; [|split]].
  - intros Hne.
    destruct (last_point (chartData s)) as [lp|] eqn:El;
      [|apply last_point_none in El; contradiction].
    destruct (tick_some s e lp El) as (secs & ticks & e' & Et & _).
    rewrite Et. eexists _, _. simpl. split; [reflexivity|].
    split; [reflexivity|]. now apply slice1_snoc_length.
  - intros Hnil. now rewrite tick_none.
  - apply init_chart_length.
  - intros n. unfold session. rewrite bind_eval.
    pose proof (init_chart_length e) as H50.
    destruct (run_length n (fst (init_effect initial_state e))
                (snd (init_effect initial_state e))) as (s' & Hr & Hl).
    + intros Hnil. rewrite Hnil in H50. discriminate H50.
    + exists s'. split; [exact Hr | now rewrite Hl].
Qed.

Lemma tick_keeps_series_length_witness :
  (exists s' p,
     fst (tick two_points (steady 0.25)) = Some s' /\
     chartData s' = slice1 (chartData two_points) ++ [p] /\
     length (chartData s') = 2%nat) /\
  fst (tick initial_state (steady 0.25)) = None.
Proof.
  split.
  - apply (tick_keeps_series_length two_points (steady 0.25)). discriminate.
  - apply (tick_keeps_series_length initial_state (steady 0.25)). reflexivity.
Defined.

(** ** The portfolio value *)

Lemma Forall_slice1 {A} (P : A -> Prop) (l : list A) :
  Forall P l -> Forall P (slice1 l).
Proof. intros H. destruct H; [constructor | assumption]. Qed.

Lemma tick_tracks (s : AppState) (e : Env) :
  tracks s ->
  exists s' e', tick s e = (Some s', e') /\ tracks s' /\ random e' = random e.
Proof.
  intros (Hall & lp & Hlast & Hpv).
  destruct (tick_some s e lp Hlast) as (secs & ticks & e' & Et & Hsrc).
  eexists _, e'. split; [exact Et|]. split; [|exact Hsrc].
  unfold tracks. cbn [chartData portfolioValue]. split.
  - apply Forall_app. split; [now apply Forall_slice1|].
    constructor; [|constructor]. cbn [value]. apply Q.le_max_l.
  - eexists. split; [apply last_point_snoc|]. cbn [value]. lra.
Qed.

Lemma run_tracks (n : nat) :
  forall (s : AppState) (e : Env),
    tracks s -> exists s', fst (run n s e) = Some s' /\ tracks s'.
Proof.
  induction n as [|n IH]; intros s e Hs.
  - exists s. split; [reflexivity | exact Hs].
  - destruct (tick_tracks s (elapse 1000 e) Hs) as (s1 & e1 & Et & Hs1 & _).
    cbn [run]. rewrite Et. apply IH. exact Hs1.
Qed.

Lemma init_tracks (e : Env) :
  unit_draws e -> tracks (fst (init_effect initial_state e)).
Proof.
  intros He. pose proof (init_chart_values e He) as Hv.
  pose proof (init_chart_length e) as Hl.
  destruct (init_effect_spec initial_state e) as (_ & Hpv & _).
  split.
  - eapply Forall_impl; [|exact Hv]. intros p [Hp _]. cbn beta in Hp. lra.
  - destruct (last_point (chartData (fst (init_effect initial_state e))))
      as [lp|] eqn:El.
    + exists lp. split; [reflexivity|].
      apply last_point_In in El. rewrite Forall_forall in Hv.
      destruct (Hv lp El) as [_ Hhi]. rewrite Hpv. cbn [portfolioValue initial_state].
      lra.
    + apply last_point_none in El. rewrite El in Hl. discriminate Hl.
Qed.

Lemma session_eval (n : nat) (e : Env) :
  session n e
  = run n (fst (init_effect initial_state e)) (snd (init_effect initial_state e)).
Proof. unfold session. apply bind_eval. Qed.

Lemma session_tracks (n : nat) (e : Env) (s : AppState) :
  unit_draws e -> fst (session n e) = Some s -> tracks s.
Proof.
  intros He. rewrite session_eval.
  generalize (init_tracks e He).
  generalize (fst (init_effect initial_state e)) (snd (init_effect initial_state e)).
  intros s0 e0 H0 Hs.
  destruct (run_tracks n s0 e0 H0) as (s' & Hr & Ht).
  congruence.
Qed.

(** Chart values of a mounted component are never negative. *)
Lemma chart_values_nonneg (n : nat) (e : Env) (s : AppState) :
  unit_draws e -> fst (session n e) = Some s ->
  Forall (fun p => 0 <= value p) (chartData s).
Proof. intros He Hs. exact (proj1 (session_tracks n e s He Hs)). Qed.


(** The floor is met: an initial last chart value of 120 followed by 48
    ticks on a draw of zero brings the chart to 0 and the portfolio value
    to 112500. *)
Lemma portfolio_floor_is_met :
  unit_draws high_then_zero /\
  exists s,
    fst (session 48 high_then_zero) = Some s /\ portfolioValue s == 112500.
Proof.
  split.
  - intros i. simpl. destruct (i <? 50)%nat; split; lra.
  - eexists. split; [vm_compute; reflexivity|]. vm_compute. reflexivity.
Qed.




End FeedProofs.

(* ================================================================== *)
(** * More on the service worker *)
(* ================================================================== *)

Module SWMore.
Import Host SW SWProofs.
Local Open Scope string_scope.
Local Open Scope list_scope.
Local Open Scope promise_scope.

(** ** Auxiliary definitions *)

Definition clear_msg : string := "[Service Worker] Clearing old cache".

Definition stale (CACHE_NAME n : string) : bool := negb (String.eqb n CACHE_NAME).

(** A storage holding entries the deployed asset list does not name. *)
Definition legacy_world : World :=
  {| caches := [("meet-patel-portfolio-v0", [(GET "/", page "/old")]);
                (Deployed.CACHE_NAME, [(GET "/cv.pdf", page "/cv.pdf");
                                       (GET "/about.html", page "/about-old")])];
     server := site_server; net_log := []; console := [] |}.

Definition legacy_registration : Registration :=
  {| active := Some deployed; world := legacy_world |}.

Definition fresh_registration : Registration :=
  {| active := None; world := fresh_world |}.

(** ** Buckets other than the current one *)

Lemma bucket_storage_open_other (name n : string) (cs : CacheStorage) :
  n <> name -> bucket n (storage_open name cs) = bucket n cs.
Proof.
  intros Hne. unfold storage_open. destruct (has_bucket name cs); [reflexivity|].
  rewrite bucket_app. destruct (bucket n cs); [reflexivity|].
  simpl. apply String.eqb_neq in Hne. now rewrite Hne.
Qed.

Lemma bucket_update_bucket_other (name n : string) (c : Cache) (cs : CacheStorage) :
  n <> name -> bucket n (update_bucket name c cs) = bucket n cs.
Proof.
  intros Hne. induction cs as [|[n0 c0] cs IH]; [reflexivity|]. simpl.
  destruct (String.eqb name n0) eqn:E; simpl.
  - apply String.eqb_eq in E. subst n0.
    apply String.eqb_neq in Hne. rewrite Hne. exact IH.
  - destruct (String.eqb n n0); [reflexivity | exact IH].
Qed.

Lemma query_cache_remove_urls_other (q : Request) (us : list string) (c : Cache) :
  ~ In (url q) us -> query_cache q (remove_urls us c) = query_cache q c.
Proof.
  intros Hn. unfold query_cache, remove_urls.
  induction c as [|e c IH]; [reflexivity|]. simpl.
  destruct (request_matches q (fst e)) eqn:Em.
  - apply request_matches_exact in Em. destruct Em as [Hm Hu].
    assert (Hkeep : existsb (fun u => String.eqb u (url (fst e))) us = false).
    { apply not_true_is_false. intros Hex. apply existsb_exists in Hex.
      destruct Hex as (u & Hin & Heq). apply String.eqb_eq in Heq.
      apply Hn. rewrite Hu, <- Heq. exact Hin. }
    rewrite Hkeep. simpl.
    assert (Em : request_matches q (fst e) = true)
      by (apply request_matches_exact; now split).
    rewrite Em. now f_equal.
  - destruct (existsb _ us); simpl; [exact IH|]. now rewrite Em.
Qed.

Lemma query_cache_keys_other (q : Request) (ops : list (Request * Response)) :
  ~ In (url q) (keys_of ops) -> query_cache q ops = [].
Proof.
  intros Hn. unfold query_cache.
  induction ops as [|op ops IH]; [reflexivity|]. simpl in *.
  destruct (request_matches q (fst op)) eqn:Em.
  - apply request_matches_exact in Em. destruct Em as [_ Hu].
    exfalso. apply Hn. left. now symmetry.
  - apply IH. intros H. apply Hn. now right.
Qed.

Lemma install_outcomes (CACHE_NAME : string) (ASSETS : list string) (w : World) :
  caches (after (install CACHE_NAME ASSETS) w) = storage_open CACHE_NAME (caches w)
  \/ exists ops,
       keys_of ops = ASSETS /\
       caches (after (install CACHE_NAME ASSETS) w)
         = installed_caches CACHE_NAME ASSETS ops (caches w).
Proof.
  destruct (fulfilled (outcome (install CACHE_NAME ASSETS) w)) eqn:Eo.
  - right. destruct (install_fulfilled_inv _ _ _ Eo) as (ops & Hf & HN & Hk & _ & _).
    exists ops. split; [exact Hk|].
    now destruct (install_fulfilled_intro CACHE_NAME ASSETS w ops Hf HN).
  - left. now apply install_rejected_caches.
Qed.

(** X1.  Whatever its outcome, the install handler leaves every bucket
    under another name exactly as it was, and in the bucket of its own
    name it leaves the entries of every URL the asset list does not
    name as they were. *)
Theorem install_touches_only_listed_entries
    (CACHE_NAME : string) (ASSETS : list string) (w : World) :
  (forall n, n <> CACHE_NAME ->
     bucket n (caches (after (install CACHE_NAME ASSETS) w)) = bucket n (caches w)) /\
  (forall c q,
     bucket CACHE_NAME (caches w) = Some c ->
     ~ In (url q) ASSETS ->
     exists c',
       bucket CACHE_NAME (caches (after (install CACHE_NAME ASSETS) w)) = Some c' /\
       query_cache q c' = query_cache q c).
Proof.
  split.
  - intros n Hne.
    destruct (install_outcomes CACHE_NAME ASSETS w) as [-> | (ops & _ & ->)].
    + now apply bucket_storage_open_other.
    + unfold installed_caches.
      rewrite bucket_update_bucket_other by exact Hne.
      now apply bucket_storage_open_other.
  - intros c q Hb Hn.
    assert (Hold : old_bucket CACHE_NAME (caches w) = c)
      by (unfold old_bucket; now rewrite Hb).
    destruct (install_outcomes CACHE_NAME ASSETS w) as [-> | (ops & Hk & ->)].
    + exists c. split; [|reflexivity]. now rewrite bucket_storage_open, Hold.
    + eexists. split.
      * unfold installed_caches.
        rewrite bucket_update_bucket, bucket_storage_open. reflexivity.
      * rewrite Hold, query_cache_app, query_cache_remove_urls_other by exact Hn.
        rewrite (query_cache_keys_other q ops) by (rewrite Hk; exact Hn).
        apply app_nil_r.
Qed.

Lemma install_touches_only_listed_entries_witness :
  bucket "meet-patel-portfolio-v0"
    (caches (after (install Deployed.CACHE_NAME Deployed.ASSETS_TO_CACHE) legacy_world))
  = Some [(GET "/", page "/old")]
  /\ exists c',
       bucket Deployed.CACHE_NAME
         (caches (after (install Deployed.CACHE_NAME Deployed.ASSETS_TO_CACHE) legacy_world))
       = Some c' /\
       query_cache (GET "/cv.pdf") c' = [(GET "/cv.pdf", page "/cv.pdf")].
Proof.
  destruct (install_touches_only_listed_entries
              Deployed.CACHE_NAME Deployed.ASSETS_TO_CACHE legacy_world)
    as [Hother Hkept].
  split.
  - rewrite Hother; [reflexivity | discriminate].
  - apply (Hkept [(GET "/cv.pdf", page "/cv.pdf"); (GET "/about.html", page "/about-old")]
                 (GET "/cv.pdf")).
    + reflexivity.
    + vm_compute. intuition discriminate.
Defined.

(** ** When the install is fulfilled *)

(** X2.  The install handler is fulfilled only if the asset list names
    no URL twice and the network gave an acceptable response for every
    URL of the list; a list that names a URL twice is never installed,
    whatever the network answers. *)
Theorem install_fulfilled_only_if
    (CACHE_NAME : string) (ASSETS : list string) (w : World) :
  (fulfilled (outcome (install CACHE_NAME ASSETS) w) = true ->
   NoDup ASSETS /\ forallb (fetch_ok (server w)) ASSETS = true) /\
  (~ NoDup ASSETS ->
   fulfilled (outcome (install CACHE_NAME ASSETS) w) = false).
Proof.
  assert (Honly : fulfilled (outcome (install CACHE_NAME ASSETS) w) = true ->
                  NoDup ASSETS /\ forallb (fetch_ok (server w)) ASSETS = true).
  { intros Hok.
    pose proof (fetch_all_spec (server w) ASSETS) as Hs.
    destruct (install_fulfilled_inv _ _ _ Hok) as (ops & Hf & HN & _).
    rewrite Hf in Hs. now destruct Hs as (Hall & _). }
  split; [exact Honly|].
  intros Hdup.
  destruct (fulfilled (outcome (install CACHE_NAME ASSETS) w)) eqn:E;
    [|reflexivity].
  exfalso. apply Hdup. now destruct (Honly eq_refl).
Qed.

Lemma install_fulfilled_only_if_witness :
  fulfilled (outcome (install Deployed.CACHE_NAME ["/"; "/about.html"; "/"]) fresh_world)
    = false /\
  NoDup Deployed.ASSETS_TO_CACHE.
Proof.
  split.
  - apply (install_fulfilled_only_if Deployed.CACHE_NAME ["/"; "/about.html"; "/"]
             fresh_world).
    intros HN. inversion HN as [|? ? Hnotin _]. apply Hnotin. simpl. tauto.
  - apply (install_fulfilled_only_if Deployed.CACHE_NAME Deployed.ASSETS_TO_CACHE
             fresh_world).
    vm_compute. reflexivity.
Defined.

(** ** What activation logs, and activating again *)

Lemma clear_stale_console (CACHE_NAME n : string) (w : World) :
  console (snd (clear_stale CACHE_NAME n w))
  = console w ++ (if stale CACHE_NAME n then [clear_msg] else []).
Proof.
  unfold clear_stale, stale. destruct (String.eqb n CACHE_NAME); simpl.
  - now rewrite app_nil_r.
  - reflexivity.
Qed.

Lemma Promise_all_clear_stale_console (CACHE_NAME : string) (names : list string) :
  forall w,
    console (snd (Promise_all (map (clear_stale CACHE_NAME) names) w))
    = console w ++ repeat clear_msg (length (filter (stale CACHE_NAME) names)).
Proof.
  induction names as [|n names IH]; intros w; simpl.
  - now rewrite app_nil_r.
  - pose proof (clear_stale_console CACHE_NAME n w) as H1.
    destruct (clear_stale CACHE_NAME n w) as [r w1].
    pose proof (IH w1) as H2.
    destruct (Promise_all (map (clear_stale CACHE_NAME) names) w1) as [rs w2].
    simpl in *. rewrite H2, H1.
    destruct (stale CACHE_NAME n); simpl.
    + now rewrite <- app_assoc.
    + now rewrite app_nil_r.
Qed.

Lemma filter_idem {A} (f : A -> bool) (l : list A) :
  filter f (filter f l) = filter f l.
Proof.
  induction l as [|a l IH]; [reflexivity|]. simpl.
  destruct (f a) eqn:E; simpl; [rewrite E; now f_equal | exact IH].
Qed.

Lemma no_stale_name_left (CACHE_NAME : string) (cs : CacheStorage) :
  filter (stale CACHE_NAME)
    (map fst (filter (fun b => String.eqb (fst b) CACHE_NAME) cs)) = [].
Proof.
  induction cs as [|[n c] cs IH]; [reflexivity|]. simpl.
  destruct (String.eqb n CACHE_NAME) eqn:E; [|exact IH].
  simpl. unfold stale at 1. now rewrite E.
Qed.

(** X3.  The activate handler writes one line to the console for each
    bucket it deletes and sends nothing to the network.  Activating a
    second time changes nothing: no bucket is deleted and nothing is
    logged. *)
Theorem activate_logs_each_deletion_and_settles (CACHE_NAME : string) (w : World) :
  console (after (activate CACHE_NAME) w)
    = console w
      ++ repeat clear_msg (length (filter (stale CACHE_NAME) (map fst (caches w)))) /\
  net_log (after (activate CACHE_NAME) w) = net_log w /\
  caches (after (activate CACHE_NAME) (after (activate CACHE_NAME) w))
    = caches (after (activate CACHE_NAME) w) /\
  console (after (activate CACHE_NAME) (after (activate CACHE_NAME) w))
    = console (after (activate CACHE_NAME) w).
Proof.
  assert (Hlog : forall v,
            console (after (activate CACHE_NAME) v)
            = console v
              ++ repeat clear_msg
                   (length (filter (stale CACHE_NAME) (map fst (caches v))))).
  { intros v. unfold after. rewrite activate_unfold.
    apply Promise_all_clear_stale_console. }
  destruct (activate_caches CACHE_NAME w) as (_ & Hc & _ & Hn).
  destruct (activate_caches CACHE_NAME (after (activate CACHE_NAME) w))
    as (_ & Hc2 & _ & _).
  split; [apply Hlog|]. split; [exact Hn|]. split.
  - rewrite Hc2, Hc. apply filter_idem.
  - rewrite (Hlog (after (activate CACHE_NAME) w)), Hc, no_stale_name_left.
    simpl. apply app_nil_r.
Qed.

(** ** A fulfilled update *)

Lemma update_fulfilled (new : Version) (reg : Registration) :
  fulfilled (outcome (install (cache_name new) (assets new)) (world reg)) = true ->
  active (update new reg) = Some new /\
  world (update new reg)
    = after (activate (cache_name new))
        (after (install (cache_name new) (assets new)) (world reg)).
Proof.
  unfold update, outcome, after.
  destruct (install (cache_name new) (assets new) (world reg)) as [[v|e] w1];
    simpl; [|discriminate]. intros _. split; reflexivity.
Qed.

Lemma has_bucket_false_bucket (name : string) (cs : CacheStorage) :
  has_bucket name cs = false -> bucket name cs = None.
Proof.
  rewrite has_bucket_bucket. now destruct (bucket name cs).
Qed.

Lemma filter_current_none (name : string) (c : Cache) (cs : CacheStorage) :
  has_bucket name cs = false ->
  filter (fun b => String.eqb (fst b) name) (update_bucket name c cs) = [].
Proof.
  unfold has_bucket, update_bucket.
  induction cs as [|[n c0] cs IH]; [reflexivity|]. simpl.
  destruct (String.eqb name n) eqn:E; [discriminate|]. simpl.
  rewrite (String.eqb_sym n name), E. exact IH.
Qed.

Lemma filter_current_single (name : string) (c : Cache) :
  filter (fun b => String.eqb (fst b) name) (update_bucket name c [(name, [])])
  = [(name, c)].
Proof.
  unfold update_bucket. cbn [map fst]. rewrite String.eqb_refl.
  cbn [filter fst]. now rewrite String.eqb_refl.
Qed.

Lemma update_bucket_app (name : string) (c : Cache) (cs1 cs2 : CacheStorage) :
  update_bucket name c (cs1 ++ cs2)
  = update_bucket name c cs1 ++ update_bucket name c cs2.
Proof. apply map_app. Qed.

Lemma before_hash_fragment (u f : string) :
  before_hash u = u -> before_hash (u ++ String "#" f)%string = u.
Proof.
  induction u as [|c u IH]; intros H; simpl in *; [reflexivity|].
  destruct (Ascii.eqb c "#"); [discriminate H|].
  injection H as H. now rewrite (IH H).
Qed.

Lemma query_cache_same_url (q q' : Request) (c : Cache) :
  method q = method q' -> url q = url q' -> query_cache q c = query_cache q' c.
Proof.
  intros Hm Hu. unfold query_cache. apply filter_ext. intros e.
  unfold request_matches. now rewrite Hm, Hu.
Qed.

(** X4.  When the asset list names its URLs without a fragment, the new
    version's tag names no existing bucket and its install is fulfilled,
    the update makes it the active version and leaves a single bucket,
    named by the tag, holding exactly one entry per URL of the asset
    list, in list order, with the response the network gave.  A request
    for a listed URL, whatever fragment follows it, is then answered from
    that bucket; a request whose URL, fragment excluded, is outside the
    list goes to the network. *)
Theorem update_under_fresh_tag (new : Version) (reg : Registration) :
  Forall (fun u => before_hash u = u) (assets new) ->
  has_bucket (cache_name new) (caches (world reg)) = false ->
  fulfilled (outcome (install (cache_name new) (assets new)) (world reg)) = true ->
  active (update new reg) = Some new /\
  exists ops,
    caches (world (update new reg)) = [(cache_name new, ops)] /\
    map fst ops = map GET (assets new) /\
    Forall (fun op => server (world reg) (fst op) = Some (snd op)) ops /\
    (forall u f, In u (assets new) ->
       exists r,
         In (GET u, r) ops /\
         serve (update new reg) (new_Request (u ++ String "#" f)%string)
               (world (update new reg))
         = (Fulfilled r, world (update new reg))) /\
    (forall q, ~ In (url q) (assets new) ->
       serve (update new reg) q (world (update new reg))
       = fetch q (world (update new reg))).
Proof.
  intros Hplain Hfresh Hok.
  destruct (update_fulfilled new reg Hok) as [Ha Hw].
  destruct (install_fulfilled_inv _ _ _ Hok) as (ops & Hf & HN & Hk & _ & _).
  destruct (install_fulfilled_intro (cache_name new) (assets new) (world reg) ops Hf HN)
    as [_ Hc1].
  pose proof (fetch_all_spec (server (world reg)) (assets new)) as Hs.
  rewrite Hf in Hs. destruct Hs as (_ & Hfst & Hsrv).
  assert (Hcaches : caches (world (update new reg)) = [(cache_name new, ops)]).
  { rewrite Hw.
    destruct (activate_caches (cache_name new)
                (after (install (cache_name new) (assets new)) (world reg)))
      as (_ & -> & _).
    rewrite Hc1. unfold installed_caches, old_bucket, storage_open.
    rewrite (has_bucket_false_bucket _ _ Hfresh), Hfresh.
    rewrite update_bucket_app, filter_app, filter_current_none by exact Hfresh.
    rewrite filter_current_single. reflexivity. }
  split; [exact Ha|]. exists ops.
  split; [exact Hcaches|]. split; [exact Hfst|]. split; [exact Hsrv|]. split.
  - intros u f Hin.
    destruct (fetched_entry (server (world reg)) ops (assets new) u Hfst Hsrv Hin)
      as (r & _ & Hr).
    exists r. split; [exact Hr|].
    unfold serve. rewrite Ha, fetch_handler_spec, Hcaches. simpl.
    unfold cache_match.
    rewrite (query_cache_same_url _ (GET u)).
    + rewrite (query_cache_ops ops u r) by (rewrite ?Hk; assumption).
      reflexivity.
    + reflexivity.
    + simpl. apply before_hash_fragment.
      rewrite Forall_forall in Hplain. now apply Hplain.
  - intros q Hq. unfold serve. rewrite Ha, fetch_handler_spec, Hcaches. simpl.
    unfold cache_match.
    rewrite (query_cache_keys_other q ops) by (rewrite Hk; exact Hq).
    reflexivity.
Qed.

Lemma update_under_fresh_tag_witness :
  active (update deployed fresh_registration) = Some deployed /\
  exists ops,
    caches (world (update deployed fresh_registration))
      = [(Deployed.CACHE_NAME, ops)] /\
    map fst ops = map GET Deployed.ASSETS_TO_CACHE /\
    exists r,
      serve (update deployed fresh_registration) (new_Request "/index.html#top")
            (world (update deployed fresh_registration))
      = (Fulfilled r, world (update deployed fresh_registration)).
Proof.
  destruct (update_under_fresh_tag deployed fresh_registration)
    as (Ha & ops & Hc & Hfst & _ & Hhit & _).
  - repeat constructor.
  - reflexivity.
  - vm_compute. reflexivity.
  - split; [exact Ha|]. exists ops. split; [exact Hc|]. split; [exact Hfst|].
    destruct (Hhit "/index.html" "top") as (r & _ & Hr).
    + right. left. reflexivity.
    + exists r. exact Hr.
Defined.

(** X5.  When the tag is reused, an entry the bucket held for a URL that
    the new asset list no longer names survives a fulfilled update, and
    the request for it is still answered from the cache, with the old
    response and without the network. *)
Theorem update_under_reused_tag_keeps_dropped_entries
    (new : Version) (reg : Registration)
    (q : Request) (c : Cache) (r : Response) :
  bucket (cache_name new) (caches (world reg)) = Some c ->
  cache_match q c = Some r ->
  ~ In (url q) (assets new) ->
  fulfilled (outcome (install (cache_name new) (assets new)) (world reg)) = true ->
  serve (update new reg) q (world (update new reg))
  = (Fulfilled r, world (update new reg)).
Proof.
  intros Hb Hm Hq Hok.
  destruct (update_fulfilled new reg Hok) as [Ha Hw].
  destruct (install_fulfilled_inv _ _ _ Hok) as (ops & Hf & HN & Hk & _ & _).
  destruct (install_fulfilled_intro (cache_name new) (assets new) (world reg) ops Hf HN)
    as [_ Hc1].
  unfold serve. rewrite Ha, fetch_handler_spec.
  assert (Hhit : storage_match q (caches (world (update new reg))) = Some r).
  { rewrite Hw.
    destruct (activate_caches (cache_name new)
                (after (install (cache_name new) (assets new)) (world reg)))
      as (_ & -> & _).
    apply (storage_match_filter_current _ _ _
             (remove_urls (assets new) c ++ ops)).
    - rewrite Hc1. unfold installed_caches, old_bucket.
      now rewrite bucket_update_bucket, bucket_storage_open, Hb.
    - unfold cache_match in *.
      rewrite query_cache_app, query_cache_remove_urls_other by exact Hq.
      rewrite (query_cache_keys_other q ops) by (rewrite Hk; exact Hq).
      now rewrite app_nil_r. }
  now rewrite Hhit.
Qed.

Lemma update_under_reused_tag_keeps_dropped_entries_witness :
  outcome (serve (update deployed legacy_registration) (GET "/cv.pdf"))
    (world (update deployed legacy_registration))
  = Fulfilled (page "/cv.pdf").
Proof.
  unfold outcome.
  rewrite (update_under_reused_tag_keeps_dropped_entries
             deployed legacy_registration (GET "/cv.pdf")
             [(GET "/cv.pdf", page "/cv.pdf"); (GET "/about.html", page "/about-old")]
             (page "/cv.pdf")).
  - reflexivity.
  - reflexivity.
  - reflexivity.
  - vm_compute. intuition discriminate.
  - vm_compute. reflexivity.
Defined.

End SWMore.

(* ================================================================== *)
(** * More on the market feed *)
(* ================================================================== *)

Module FeedMore.
Import Feed FeedProofs.
Local Open Scope list_scope.
Local Open Scope Q_scope.
Local Open Scope eff_scope.

(** ** Auxiliary definitions *)

(** The environment after one draw. *)
Definition after_draw (e : Env) : Env :=
  {| random := random e; drawn := S (drawn e); now := now e |}.

(** What the tick maps over the sectors and over the tickers. *)
Definition drift_sector (sc : Sector) : Eff Sector :=
  r <- Math_random ;;
  ret {| name := name sc; weight := weight sc;
         change := change sc + (r - 0.5) * 0.2 |}.

Definition move_ticker (t : Ticker) : Eff Ticker :=
  r <- Math_random ;;
  let move := (r - 0.5) * 2 in
  ret {| symbol := symbol t; price := price t + move; ticker_change := move |}.



(** The number of a tick as a rational. *)
Definition Qnat (n : nat) : Q := inject_Z (Z.of_nat n).

(** A draw source that always gives 0: the chart walks down by 2.5 a
    tick until it stays at zero. *)
Definition falling : Env := {| random := fun _ => 0; drawn := O; now := 0%Z |}.



Definition chart_within (n : nat) (s : AppState) : Prop :=
  Forall (fun p => 0 <= value p /\
                   100 - 2.5 * Qnat n <= value p /\
                   value p <= 120 + 2.5 * Qnat n)
         (chartData s).

(** ** One tick, in full *)

Lemma tick_eval (s : AppState) (e : Env) (lastPoint : ChartPoint) :
  last_point (chartData s) = Some lastPoint ->
  tick s e =
    (Some {| chartData :=
               slice1 (chartData s)
               ++ [{| time := now e; value := next_value (value lastPoint) e |}];
             sectors := fst (map_eff drift_sector (sectors s) (after_draw e));
             tickerData :=
               fst (map_eff move_ticker (tickerData s)
                      (snd (map_eff drift_sector (sectors s) (after_draw e))));
             portfolioValue :=
               portfolioValue s
               + (next_value (value lastPoint) e - value lastPoint) * 100 |},
     snd (map_eff move_ticker (tickerData s)
            (snd (map_eff drift_sector (sectors s) (after_draw e))))).
Proof.
  intros Hlast. unfold tick. rewrite Hlast.
  rewrite bind_eval, generateNextPoint_eval. cbn [fst snd].
  rewrite bind_eval. unfold Date_now at 1 2. cbn [fst snd].
  rewrite bind_eval. fold drift_sector. fold (after_draw e).
  rewrite bind_eval. fold move_ticker. reflexivity.
Qed.

Lemma drift_sector_source (sc : Sector) (e : Env) :
  random (snd (drift_sector sc e)) = random e.
Proof. reflexivity. Qed.

Lemma move_ticker_source (t : Ticker) (e : Env) :
  random (snd (move_ticker t e)) = random e.
Proof. reflexivity. Qed.

Lemma tick_source (s s' : AppState) (e e' : Env) :
  tick s e = (Some s', e') -> random e' = random e.
Proof.
  intros Ht. destruct (last_point (chartData s)) as [lp|] eqn:El.
  - rewrite (tick_eval s e lp El) in Ht. injection Ht as _ <-.
    rewrite (map_eff_source move_ticker _ move_ticker_source).
    now rewrite (map_eff_source drift_sector _ drift_sector_source).
  - apply last_point_none in El. rewrite (tick_none s e El) in Ht. discriminate.
Qed.









(** ** What a mounted component keeps *)


Lemma init_source (s : AppState) (e : Env) :
  random (snd (init_effect s e)) = random e.
Proof. now destruct (init_effect_spec s e) as (_ & _ & H). Qed.

(** An invariant indexed by the number of ticks, established by the
    initialisation and advanced by every tick, holds after a session.
    [G] is what is asked of the environment. *)
Lemma run_invariant (G : Env -> Prop) (I : nat -> AppState -> Prop) :
  (forall e e', random e' = random e -> G e -> G e') ->
  (forall k s e s' e', G e -> I k s -> tick s e = (Some s', e') -> I (S k) s') ->
  forall n k s e s',
    G e -> I k s -> fst (run n s e) = Some s' -> I (k + n)%nat s'.
Proof.
  intros HG Hstep. induction n as [|n IH]; intros k s e s' He Hs Hr.
  - simpl in Hr. injection Hr as <-. now rewrite Nat.add_0_r.
  - cbn [run] in Hr.
    destruct (tick s (elapse 1000 e)) as [[s1|] e1] eqn:Et; [|discriminate].
    assert (He0 : G (elapse 1000 e)) by (apply (HG e); [reflexivity | exact He]).
    replace (k + S n)%nat with (S k + n)%nat by lia.
    apply (IH (S k) s1 e1).
    + apply (HG (elapse 1000 e)); [|exact He0]. now apply (tick_source s s1).
    + now apply (Hstep k s (elapse 1000 e) s1 e1).
    + exact Hr.
Qed.

Lemma session_invariant (G : Env -> Prop) (I : nat -> AppState -> Prop) :
  (forall e e', random e' = random e -> G e -> G e') ->
  (forall e, G e -> I O (fst (init_effect initial_state e))) ->
  (forall k s e s' e', G e -> I k s -> tick s e = (Some s', e') -> I (S k) s') ->
  forall n e s, G e -> fst (session n e) = Some s -> I n s.
Proof.
  intros HG Hinit Hstep n e s He. rewrite session_eval. intros Hr.
  apply (run_invariant G I HG Hstep n O _ _ s) in Hr.
  - exact Hr.
  - apply (HG e); [apply init_source | exact He].
  - now apply Hinit.
Qed.

Lemma Qnat_succ (n : nat) : Qnat (S n) == Qnat n + 1.
Proof.
  unfold Qnat. rewrite Nat2Z.inj_succ, <- Z.add_1_r, inject_Z_plus. reflexivity.
Qed.

Lemma Qnat_nonneg (n : nat) : 0 <= Qnat n.
Proof.
  unfold Qnat. change 0 with (inject_Z 0). rewrite <- Zle_Qle. lia.
Qed.









(** ** The portfolio value against the chart *)






(** ** How far the chart can have walked *)

Lemma tick_chart_within (k : nat) (s s' : AppState) (e e' : Env) :
  unit_draws e -> chart_within k s -> tick s e = (Some s', e') -> chart_within (S k) s'.
Proof.
  intros He Hc Ht. destruct (last_point (chartData s)) as [lp|] eqn:El.
  - rewrite (tick_eval s e lp El) in Ht. injection Ht as <- _.
    unfold chart_within in *. cbn [chartData].
    pose proof (Qnat_succ k) as Hk.
    apply Forall_app. split.
    + apply Forall_slice1. eapply Forall_impl; [|exact Hc].
      cbn beta. intros p (Hp0 & Hlo & Hhi). rewrite Hk. repeat split; lra.
    + constructor; [|constructor]. cbn [value].
      apply last_point_In in El. rewrite Forall_forall in Hc.
      destruct (Hc lp El) as (Hp0 & Hlo & Hhi). destruct (He (drawn e)).
      pose proof (Qnat_nonneg k) as Hk0.
      unfold next_value. rewrite Hk.
      destruct (Q.max_spec 0 (value lp + (random e (drawn e) - 0.5) * 5))
        as [[Hlt ->] | [Hle ->]]; repeat split; lra.
  - apply last_point_none in El. rewrite (tick_none s e El) in Ht. discriminate.
Qed.

(** X11.  After [n] ticks of a mounted component every chart value is
    at least 0, at least 100 - 2.5 n, and at most 120 + 2.5 n.  The draws
    range from 0 to 1, both ends included. *)
Theorem session_chart_walk_is_bounded (n : nat) (e : Env) (s : AppState) :
  unit_draws e ->
  fst (session n e) = Some s ->
  Forall (fun p => 0 <= value p /\
                   100 - 2.5 * Qnat n <= value p /\
                   value p <= 120 + 2.5 * Qnat n)
         (chartData s).
Proof.
  intros He Hs.
  apply (session_invariant unit_draws chart_within) with (e := e).
  - intros e0 e1. apply unit_draws_same_source.
  - intros e0 He0. unfold chart_within. change (Qnat O) with 0.
    eapply Forall_impl; [|exact (init_chart_values e0 He0)].
    cbn beta. intros p [Hlo Hhi]. repeat split; lra.
  - intros k s0 e0 s1 e1. apply tick_chart_within.
  - exact He.
  - exact Hs.
Qed.

Lemma session_chart_walk_is_bounded_witness :
  exists s,
    fst (session 2 (steady 0.25)) = Some s /\
    Forall (fun p => 0 <= value p /\
                     100 - 2.5 * Qnat 2 <= value p /\
                     value p <= 120 + 2.5 * Qnat 2)
           (chartData s).
Proof.
  eexists. split; [vm_compute; reflexivity|].
  apply (session_chart_walk_is_bounded 2 (steady 0.25)).
  - intros i. simpl. lra.
  - vm_compute. reflexivity.
Defined.

(** ** Prices are not clamped *)

(** X20.  Unlike the chart value, a ticker's price is not clamped at
    zero: a mounted component can reach a negative price. *)
Theorem ticker_price_can_go_negative :
  exists n e s t,
    fair e /\ fst (session n e) = Some s /\
    In t (tickerData s) /\ price t < 0.
Proof.
  exists 101%nat, falling. eexists. eexists.
  split; [intros i; simpl; lra|].
  split; [vm_compute; reflexivity|].
  split; [left; reflexivity | vm_compute; reflexivity].
Qed.

End FeedMore.

(* ================================================================== *)
(** * Properties of the dashboard's derived values and guard *)
(* ================================================================== *)

Module DashboardProofs.
Import Feed FeedProofs FeedMore Dashboard.
Local Open Scope list_scope.
Local Open Scope Q_scope.

(** ** Auxiliary definitions *)

Definition tile (c : Q) : Sector :=
  {| name := "Tech"; weight := 30%Z; change := c |}.

Fixpoint has_dash (s : string) : bool :=
  match s with
  | EmptyString => false
  | String c s' => Ascii.eqb c "-"%char || has_dash s'
  end.

Definition tape_key (item : Ticker) (i : nat) : string :=
  (symbol item ++ "-" ++ string_of_nat i)%string.

Definition design_demo : ModalContent :=
  {| title := "Design Demo";
     body := "This site is a demo for UI/UX design showcase." |}.

(** A burst of clicks: no timer fires in between. *)
Definition clicks (actions : list (option Action)) (p : Page) : Page :=
  fold_left (fun p a => handleInteraction a p) actions p.

(** A click followed, a second later, by the callback of the timer it
    armed. *)
Definition slow_click (p : Page) (action : option Action) : Page :=
  let p1 := handleInteraction action p in
  match clickTimerRef p1 with
  | Some id => timer_fires id p1
  | None => p1
  end.

Definition slow_clicks (actions : list (option Action)) (p : Page) : Page :=
  fold_left slow_click actions p.

(** What every reachable page satisfies: the counter is at most 4, and
    a pending timer is the single one the ref names. *)
Definition guarded (p : Page) : Prop :=
  (clickCount (ui p) <= 4)%nat /\
  (pending p = [] \/
   exists id, pending p = [id] /\ clickTimerRef p = Some id /\ id <> O).

Definition acted (action : option Action) (p : Page) : Page :=
  match action with
  | Some a => run_action a p
  | None => p
  end.

(** ** The total change *)

Lemma totalChange_eval (l : list ChartPoint) (first last : ChartPoint) :
  nth_error l 0 = Some first -> last_point l = Some last ->
  (2 <= length l)%nat ->
  totalChange l = js_mul (js_div (value last - value first) (value first)) 100.
Proof.
  intros Hf Hl Hlen. unfold totalChange.
  replace (length l <? 2)%nat with false
    by (symmetry; apply Nat.ltb_ge; exact Hlen).
  now rewrite Hf, Hl.
Qed.

(** X12.  On a series of fewer than two points the total change is 0.
    On a longer series whose first value is not negative, the test
    [totalChange >= 0] that picks the indicator holds exactly when the
    last value is at least the first and is positive; and when the first
    value is positive the total change is the finite number
    (last - first) / first * 100. *)
Theorem totalChange_sign (l : list ChartPoint) :
  ((length l < 2)%nat -> totalChange l = Finite 0) /\
  (forall first last,
     nth_error l 0 = Some first -> last_point l = Some last ->
     (2 <= length l)%nat -> 0 <= value first ->
     (js_ge0 (totalChange l) = true <->
      value first <= value last /\ 0 < value last) /\
     (0 < value first ->
      exists t, totalChange l = Finite t /\
                t == (value last - value first) / value first * 100)).
Proof.
  split.
  - intros Hlen. unfold totalChange.
    now replace (length l <? 2)%nat with true
      by (symmetry; apply Nat.ltb_lt; exact Hlen).
  - intros first last Hf Hl Hlen H0.
    rewrite (totalChange_eval l first last Hf Hl Hlen). unfold js_div.
    destruct (Qeq_bool (value first) 0) eqn:E.
    + apply Qeq_bool_eq in E. split; [|intros Hpos; lra].
      destruct (value last - value first ?= 0) eqn:C; cbn.
      * apply Qeq_alt in C. split; [discriminate | intros [_ H]; lra].
      * apply Qlt_alt in C. split; [discriminate | intros [_ H]; lra].
      * apply Qgt_alt in C. split; [intros _; split; lra | reflexivity].
    + apply Qeq_bool_neq in E.
      assert (Hpos : 0 < value first).
      { destruct (Qlt_le_dec 0 (value first)) as [H | H]; [exact H|].
        exfalso. apply E. lra. }
      assert (Hinv : 0 < / value first) by now apply Qinv_lt_0_compat.
      cbn [js_mul js_ge0]. split.
      * rewrite Qle_bool_iff. unfold Qdiv.
        set (i := / value first) in *. split.
        -- intros H. assert (0 <= value last - value first) by nra. split; lra.
        -- intros [H _]. nra.
      * intros _. eexists. split; reflexivity.
Qed.

Lemma totalChange_sign_witness :
  totalChange [ {| time := 0%Z; value := 100 |} ] = Finite 0 /\
  js_ge0 (totalChange [ {| time := 0%Z; value := 100 |};
                        {| time := 1000%Z; value := 101 |} ]) = true.
Proof.
  split.
  - apply (totalChange_sign [ {| time := 0%Z; value := 100 |} ]). simpl. lia.
  - apply (proj2 (totalChange_sign [ {| time := 0%Z; value := 100 |};
                                     {| time := 1000%Z; value := 101 |} ])
                 {| time := 0%Z; value := 100 |} {| time := 1000%Z; value := 101 |}).
    + reflexivity.
    + reflexivity.
    + simpl. lia.
    + simpl. lra.
    + simpl. split; lra.
Defined.

(** X13.  The division by the first chart value is not guarded.  When a
    series of two points or more starts at 0 the total change is no
    finite number, and it is NaN when the series also ends at 0; the
    indicator test [totalChange >= 0] then fails although nothing moved.
    A mounted component reaches such a series. *)
Theorem totalChange_unguarded_at_zero :
  (forall l first last,
     nth_error l 0 = Some first -> last_point l = Some last ->
     (2 <= length l)%nat -> value first == 0 ->
     (forall t, totalChange l <> Finite t) /\
     (value last == 0 ->
      totalChange l = NaN /\ js_ge0 (totalChange l) = false)) /\
  (exists n e s,
     fair e /\ fst (session n e) = Some s /\ totalChange (chartData s) = NaN).
Proof.
  split.
  - intros l first last Hf Hl Hlen Hz.
    rewrite (totalChange_eval l first last Hf Hl Hlen). unfold js_div.
    rewrite (Qeq_eq_bool _ _ Hz). split.
    + intros t. destruct (value last - value first ?= 0); cbn; discriminate.
    + intros Hlast.
      assert (C : (value last - value first ?= 0) = Eq) by (apply Qeq_alt; lra).
      rewrite C. split; reflexivity.
  - exists 90%nat, falling. eexists. split; [intros i; simpl; lra|].
    split; vm_compute; reflexivity.
Qed.

Lemma totalChange_unguarded_at_zero_witness :
  totalChange [ {| time := 0%Z; value := 0 |}; {| time := 1000%Z; value := 0 |} ]
  = NaN.
Proof.
  apply (proj1 totalChange_unguarded_at_zero
               [ {| time := 0%Z; value := 0 |}; {| time := 1000%Z; value := 0 |} ]
               {| time := 0%Z; value := 0 |} {| time := 1000%Z; value := 0 |}).
  - reflexivity.
  - reflexivity.
  - simpl. lia.
  - reflexivity.
  - reflexivity.
Defined.

(** ** The heatmap tile *)

Lemma fifth (x : Q) : x / 5 == x * (1 # 5).
Proof. unfold Qdiv. reflexivity. Qed.

(** X14.  The opacity of a tile lies between 0.1 and 1, is 1 exactly
    when the change has magnitude 4.5 or more, and never decreases as the
    magnitude of the change grows; the alpha of the background lies
    between 0.02 and 0.2.  A tile whose label carries a plus sign is a
    positive tile, and a change of exactly 0 gives a positive tile
    without a plus sign. *)
Theorem HeatmapTile_opacity (sector : Sector) :
  0.1 <= opacity sector /\ opacity sector <= 1 /\
  (opacity sector == 1 <-> 4.5 <= Qabs (change sector)) /\
  (forall other, Qabs (change sector) <= Qabs (change other) ->
                 opacity sector <= opacity other) /\
  0.02 <= backgroundAlpha sector /\ backgroundAlpha sector <= 0.2 /\
  (sign_prefix sector = "+"%string -> isPositive sector = true) /\
  (change sector == 0 ->
   isPositive sector = true /\ sign_prefix sector = ""%string).
Proof.
  unfold backgroundAlpha, opacity.
  pose proof (Qabs_nonneg (change sector)) as Hn.
  pose proof (fifth (Qabs (change sector))) as H5.
  assert (Hlo : 0 <= Qmin (Qabs (change sector) / 5) 0.9)
    by (apply Q.min_glb; lra).
  pose proof (Q.le_min_r (Qabs (change sector) / 5) 0.9) as Hhi.
  split; [lra|]. split; [lra|]. split; [|split; [|split; [|split; [|split]]]].
  - split.
    + intros H1.
      destruct (Q.min_spec (Qabs (change sector) / 5) 0.9) as [[Hlt Hm] | [Hle Hm]];
        rewrite Hm in H1; lra.
    + intros Hbig. rewrite Q.min_r by lra. reflexivity.
  - intros other Hle. pose proof (fifth (Qabs (change other))) as H5'.
    apply Qplus_le_compat; [|lra]. apply Q.min_le_compat_r. lra.
  - lra.
  - lra.
  - unfold sign_prefix, isPositive.
    destruct (Qle_bool (change sector) 0) eqn:E; [discriminate|]. intros _.
    apply Qle_bool_iff.
    destruct (Qlt_le_dec 0 (change sector)) as [H | H]; [lra|].
    apply Qle_bool_iff in H. congruence.
  - intros Hz. unfold sign_prefix, isPositive. split.
    + apply Qle_bool_iff. lra.
    + replace (Qle_bool (change sector) 0) with true; [reflexivity|].
      symmetry. apply Qle_bool_iff. lra.
Qed.

Lemma HeatmapTile_opacity_witness :
  opacity (tile 1.5) <= opacity (tile (-6)) /\ opacity (tile (-6)) == 1.
Proof.
  destruct (HeatmapTile_opacity (tile 1.5)) as (_ & _ & _ & Hmono & _).
  destruct (HeatmapTile_opacity (tile (-6))) as (_ & _ & Hone & _).
  split.
  - apply Hmono. vm_compute. discriminate.
  - apply Hone. vm_compute. discriminate.
Defined.

(** ** The ticker tape *)

Lemma has_dash_app (a d : string) : has_dash (a ++ "-" ++ d)%string = true.
Proof.
  induction a as [|c a IH]; [reflexivity|].
  simpl in *. rewrite IH. apply orb_true_r.
Qed.

Lemma uint_no_dash (d : Decimal.uint) :
  has_dash (NilEmpty.string_of_uint d) = false.
Proof. induction d; simpl; auto. Qed.

Lemma key_suffix (a b d1 d2 : string) :
  has_dash d1 = false -> has_dash d2 = false ->
  (a ++ "-" ++ d1 = b ++ "-" ++ d2)%string -> d1 = d2.
Proof.
  intros H1 H2. revert b. induction a as [|c a IH]; intros [|c' b] H; simpl in H.
  - now injection H.
  - injection H as _ H. rewrite H in H1.
    change (has_dash (b ++ "-" ++ d2)%string = false) in H1.
    rewrite has_dash_app in H1. discriminate.
  - injection H as _ H. rewrite <- H in H2.
    change (has_dash (a ++ "-" ++ d1)%string = false) in H2.
    rewrite has_dash_app in H2. discriminate.
  - injection H as _ H. now apply (IH b).
Qed.

Lemma string_of_nat_inj (i j : nat) : string_of_nat i = string_of_nat j -> i = j.
Proof.
  unfold string_of_nat. intros H.
  assert (Hu : Nat.to_uint i = Nat.to_uint j).
  { apply (f_equal NilEmpty.uint_of_string) in H.
    rewrite !NilEmpty.usu in H. now injection H. }
  apply (f_equal Nat.of_uint) in Hu.
  now rewrite !DecimalNat.Unsigned.of_to in Hu.
Qed.

Lemma tape_key_inj (a b : Ticker) (i j : nat) : tape_key a i = tape_key b j -> i = j.
Proof.
  intros H. apply string_of_nat_inj.
  apply (key_suffix (symbol a) (symbol b)); [apply uint_no_dash .. | exact H].
Qed.

Lemma mapi_from_In {A B} (f : A -> nat -> B) (l : list A) :
  forall i k, In k (mapi_from i f l) -> exists a j, (i <= j)%nat /\ k = f a j.
Proof.
  induction l as [|a l IH]; intros i k Hin; [contradiction|].
  destruct Hin as [<- | Hin].
  - exists a, i. split; [lia | reflexivity].
  - destruct (IH (S i) k Hin) as (b & j & Hj & ->).
    exists b, j. split; [lia | reflexivity].
Qed.

Lemma mapi_from_length {A B} (f : A -> nat -> B) (l : list A) :
  forall i, length (mapi_from i f l) = length l.
Proof. induction l as [|a l IH]; intros i; simpl; [reflexivity | now rewrite IH]. Qed.

Lemma tape_keys_NoDup (l : list Ticker) :
  forall i, NoDup (mapi_from i tape_key l).
Proof.
  induction l as [|a l IH]; intros i; simpl; constructor; [|apply IH].
  intros Hin. destruct (mapi_from_In tape_key l (S i) _ Hin) as (b & j & Hj & Hk).
  apply tape_key_inj in Hk. lia.
Qed.

(** X15.  Whatever the items, symbols repeated or not, the keys of the
    rendered tape are pairwise distinct; the tape shows twice as many
    entries as there are items, and its entry at position
    [length items + i] is the item at position [i]. *)
Theorem TickerTape_keys_are_unique (items : list Ticker) :
  NoDup (TickerTape_keys items) /\
  length (TickerTape_keys items) = (2 * length items)%nat /\
  (forall i, (i < length items)%nat ->
     nth_error (TickerTape_items items) i = nth_error items i /\
     nth_error (TickerTape_items items) (length items + i) = nth_error items i).
Proof.
  split; [|split].
  - apply tape_keys_NoDup.
  - unfold TickerTape_keys, mapi, TickerTape_items.
    rewrite mapi_from_length, length_app. lia.
  - intros i Hi. unfold TickerTape_items. split.
    + now apply nth_error_app1.
    + rewrite nth_error_app2 by lia. f_equal. lia.
Qed.

Lemma TickerTape_keys_are_unique_witness :
  nth_error (TickerTape_items [ {| symbol := "BTC"; price := 1; ticker_change := 0 |};
                                {| symbol := "BTC"; price := 2; ticker_change := 0 |} ])
            (2 + 1)
  = Some {| symbol := "BTC"; price := 2; ticker_change := 0 |}.
Proof.
  apply (TickerTape_keys_are_unique
           [ {| symbol := "BTC"; price := 1; ticker_change := 0 |};
             {| symbol := "BTC"; price := 2; ticker_change := 0 |} ]).
  simpl. lia.
Defined.

(** ** The chart's scales *)

Lemma fold_min_le (l : list Q) :
  forall x, fold_left Qmin l x <= x /\
            Forall (fun y => fold_left Qmin l x <= y) l.
Proof.
  induction l as [|a l IH]; intros x; simpl.
  - split; [lra | constructor].
  - destruct (IH (Qmin x a)) as [H1 H2].
    pose proof (Q.le_min_l x a). pose proof (Q.le_min_r x a).
    split; [lra|]. constructor; [lra | exact H2].
Qed.

Lemma fold_max_ge (l : list Q) :
  forall x, x <= fold_left Qmax l x /\
            Forall (fun y => y <= fold_left Qmax l x) l.
Proof.
  induction l as [|a l IH]; intros x; simpl.
  - split; [lra | constructor].
  - destruct (IH (Qmax x a)) as [H1 H2].
    pose proof (Q.le_max_l x a). pose proof (Q.le_max_r x a).
    split; [lra|]. constructor; [lra | exact H2].
Qed.

Lemma fold_min_glb (b : Q) (l : list Q) :
  forall x, b <= x -> Forall (fun y => b <= y) l -> b <= fold_left Qmin l x.
Proof.
  induction l as [|a l IH]; intros x Hx Hl; simpl; [exact Hx|].
  inversion Hl; subst. apply IH; [|assumption]. now apply Q.min_glb.
Qed.

(** X16.  The drawing effect computes scales exactly when the svg is
    mounted, the width is not zero and there is data.  The inner height
    is the height less the two margins of 20.  For data without negative
    values, every value lies within the y domain. *)
Theorem LiveChart_domain_covers_data
    (svgMounted : bool) (dimensions : Dimensions) (data : list ChartPoint) :
  (svgMounted = true /\ width dimensions <> 0%Z /\ data <> [] <->
   exists sc, LiveChart_scales svgMounted dimensions data = Some sc) /\
  (forall sc,
     LiveChart_scales svgMounted dimensions data = Some sc ->
     innerWidth sc = width dimensions /\
     innerHeight sc = (height dimensions - 40)%Z /\
     (Forall (fun p => 0 <= value p) data ->
      Forall (fun p => fst (yDomain sc) <= value p /\ value p <= snd (yDomain sc))
             data)).
Proof.
  unfold LiveChart_scales. split.
  - split.
    + intros (-> & Hw & Hd). apply Z.eqb_neq in Hw. rewrite Hw.
      destruct data as [|p data]; [congruence|]. simpl. eexists. reflexivity.
    + intros (sc & H). destruct svgMounted; [|discriminate]. simpl in H.
      destruct (width dimensions =? 0)%Z eqn:Ew; [discriminate|].
      destruct data as [|p data]; [discriminate|].
      apply Z.eqb_neq in Ew. repeat split; [exact Ew | discriminate].
  - intros sc H.
    destruct (negb svgMounted || (width dimensions =? 0)%Z
              || (length data =? 0)%nat); [discriminate|].
    destruct data as [|p data]; [discriminate|]. simpl in H.
    injection H as <-. cbn [innerWidth innerHeight yDomain fst snd].
    split; [lia|]. split; [lia|]. intros Hpos.
    destruct (fold_min_le (map value data) (value p)) as [Hm0 Hm].
    destruct (fold_max_ge (map value data) (value p)) as [HM0 HM].
    inversion Hpos as [|? ? Hp Hrest]; subst.
    assert (Hlo : 0 <= fold_left Qmin (map value data) (value p)).
    { apply fold_min_glb; [exact Hp|]. apply Forall_map. exact Hrest. }
    constructor; [split; lra|].
    rewrite Forall_map in Hm, HM. rewrite Forall_forall in *.
    intros x Hx. specialize (Hm x Hx). specialize (HM x Hx).
    cbn beta in *. split; lra.
Qed.

Lemma LiveChart_domain_covers_data_witness :
  exists sc,
    LiveChart_scales true {| width := 600; height := 250 |}
      [ {| time := 0%Z; value := 100 |}; {| time := 1000%Z; value := 101 |} ]
    = Some sc /\ innerHeight sc = 210%Z.
Proof.
  destruct (proj1 (proj1 (LiveChart_domain_covers_data true
                     {| width := 600; height := 250 |}
                     [ {| time := 0%Z; value := 100 |};
                       {| time := 1000%Z; value := 101 |} ])))
    as (sc & Hsc).
  - repeat split; discriminate.
  - exists sc. split; [exact Hsc|].
    destruct (proj2 (LiveChart_domain_covers_data true
                       {| width := 600; height := 250 |}
                       [ {| time := 0%Z; value := 100 |};
                         {| time := 1000%Z; value := 101 |} ]) sc Hsc)
      as (_ & Hh & _).
    exact Hh.
Defined.

(** ** The interaction guard *)

Lemma run_action_frame (a : Action) (p : Page) :
  clickCount (ui (run_action a p)) = clickCount (ui p) /\
  showDemoModal (ui (run_action a p)) = showDemoModal (ui p) /\
  modalContent (ui (run_action a p)) = modalContent (ui p) /\
  clickTimerRef (run_action a p) = clickTimerRef p /\
  pending (run_action a p) = pending p /\
  next_timer (run_action a p) = next_timer p.
Proof. destruct a; repeat split. Qed.

Lemma acted_frame (action : option Action) (p : Page) :
  clickCount (ui (acted action p)) = clickCount (ui p) /\
  showDemoModal (ui (acted action p)) = showDemoModal (ui p) /\
  modalContent (ui (acted action p)) = modalContent (ui p) /\
  clickTimerRef (acted action p) = clickTimerRef p /\
  pending (acted action p) = pending p /\
  next_timer (acted action p) = next_timer p.
Proof. destruct action as [a|]; [apply run_action_frame | repeat split]. Qed.

Lemma handleInteraction_ui (action : option Action) (p : Page) :
  ui (handleInteraction action p) = count_click (ui (acted action p)).
Proof.
  unfold handleInteraction. fold (acted action p).
  destruct (clickTimerRef (set_ui (count_click (ui (acted action p))) (acted action p)))
    as [id|]; [destruct (id =? 0)%nat|]; reflexivity.
Qed.

Lemma handleInteraction_timer (action : option Action) (p : Page) :
  clickTimerRef (handleInteraction action p) = Some (next_timer p) /\
  next_timer (handleInteraction action p) = S (next_timer p) /\
  pending (handleInteraction action p)
  = match clickTimerRef p with
    | Some id =>
        if (id =? 0)%nat then pending p
        else filter (fun t => negb (t =? id)%nat) (pending p)
    | None => pending p
    end ++ [next_timer p].
Proof.
  unfold handleInteraction. fold (acted action p).
  destruct (acted_frame action p) as (_ & _ & _ & Hr & Hp & Hn).
  cbn [clickTimerRef set_ui]. rewrite Hr.
  destruct (clickTimerRef p) as [id|]; [destruct (id =? 0)%nat|];
    cbn; rewrite ?Hp, ?Hn; repeat split.
Qed.

Lemma count_click_count (u : UI) :
  (clickCount u <= 4)%nat ->
  clickCount (count_click u) = ((clickCount u + 1) mod 5)%nat.
Proof.
  intros H. unfold count_click.
  destruct (4 <? S (clickCount u))%nat eqn:E; cbn [clickCount].
  - apply Nat.ltb_lt in E. assert (clickCount u = 4)%nat by lia.
    now replace (clickCount u) with 4%nat.
  - apply Nat.ltb_ge in E. rewrite Nat.mod_small by lia. lia.
Qed.

Lemma count_click_modal (u : UI) :
  (if (clickCount u =? 4)%nat
   then showDemoModal (count_click u) = true /\
        modalContent (count_click u) = design_demo
   else showDemoModal (count_click u) = showDemoModal u /\
        modalContent (count_click u) = modalContent u) \/
  (4 < clickCount u)%nat.
Proof.
  destruct (le_lt_dec (clickCount u) 4) as [H | H]; [left | right; exact H].
  unfold count_click.
  destruct (clickCount u =? 4)%nat eqn:E.
  - apply Nat.eqb_eq in E. rewrite E. cbn. split; reflexivity.
  - apply Nat.eqb_neq in E.
    replace (4 <? S (clickCount u))%nat with false
      by (symmetry; apply Nat.ltb_ge; lia).
    cbn. split; reflexivity.
Qed.

Lemma handle_guarded (p : Page) (ev : Event) :
  (0 < next_timer p)%nat -> guarded p ->
  guarded (handle p ev) /\ (0 < next_timer (handle p ev))%nat.
Proof.
  intros Hpos [Hc Hp]. destruct ev as [action | id |]; cbn [handle].
  - destruct (handleInteraction_timer action p) as (Hr & Hn & Hpend).
    split; [|lia]. split.
    + rewrite handleInteraction_ui, count_click_count.
      * apply Nat.lt_succ_r. apply Nat.mod_upper_bound. discriminate.
      * now destruct (acted_frame action p) as (-> & _).
    + right. exists (next_timer p). split; [|split; [exact Hr | lia]].
      rewrite Hpend. destruct Hp as [-> | (id & -> & -> & Hid)].
      * now destruct (clickTimerRef p) as [i|]; [destruct (i =? 0)%nat|].
      * apply Nat.eqb_neq in Hid. rewrite Hid. cbn [filter].
        now rewrite Nat.eqb_refl.
  - unfold timer_fires. destruct (existsb (Nat.eqb id) (pending p)) eqn:E.
    + split; [|exact Hpos]. split; [cbn; lia|]. left. cbn [pending].
      destruct Hp as [-> | (i & Hp & _ & _)]; [reflexivity|].
      rewrite Hp in E |- *.
      cbn in E. rewrite orb_false_r in E. apply Nat.eqb_eq in E. subst i.
      cbn [filter]. now rewrite Nat.eqb_refl.
    + split; [split; assumption | exact Hpos].
  - split; [split; assumption | exact Hpos].
Qed.

Lemma play_guarded (evs : list Event) :
  forall p, (0 < next_timer p)%nat -> guarded p ->
            guarded (play evs p) /\ (0 < next_timer (play evs p))%nat.
Proof.
  induction evs as [|ev evs IH]; intros p Hpos Hg; [now split|].
  cbn [play fold_left]. destruct (handle_guarded p ev Hpos Hg) as [Hg' Hpos'].
  now apply IH.
Qed.

Lemma initial_guarded : guarded initial_page /\ (0 < next_timer initial_page)%nat.
Proof. split; [split; [cbn; lia | now left] | cbn; lia]. Qed.

(** X17.  Whatever the clicks, timer callbacks and modal closings since
    the page was mounted, the click counter is at most 4, at most one
    timer is pending, and a pending timer is the one the component's ref
    names. *)
Theorem guard_counter_stays_below_five (evs : list Event) :
  (clickCount (ui (play evs initial_page)) <= 4)%nat /\
  (length (pending (play evs initial_page)) <= 1)%nat /\
  (forall id, In id (pending (play evs initial_page)) ->
              clickTimerRef (play evs initial_page) = Some id).
Proof.
  destruct initial_guarded as [Hg Hpos].
  destruct (play_guarded evs initial_page Hpos Hg) as [[Hc Hp] _].
  split; [exact Hc|].
  destruct Hp as [-> | (id & -> & Hr & _)].
  - split; [cbn; lia | intros id []].
  - split; [cbn; lia|]. intros i [<- | []]. exact Hr.
Qed.

(** X18.  In a burst of clicks, none of them separated by a timer
    callback, that starts with the counter at [c <= 4], the counter after
    the burst is (c + number of clicks) mod 5.  If c plus the number of
    clicks stays below 5 the modal is as it was; otherwise the modal is
    shown with the "Design Demo" text.  The action given with a click
    never changes this. *)
Theorem guard_opens_modal_on_fifth_click (actions : list (option Action)) :
  forall p,
    (clickCount (ui p) <= 4)%nat ->
    clickCount (ui (clicks actions p))
      = ((clickCount (ui p) + length actions) mod 5)%nat /\
    ((clickCount (ui p) + length actions < 5)%nat ->
       showDemoModal (ui (clicks actions p)) = showDemoModal (ui p) /\
       modalContent (ui (clicks actions p)) = modalContent (ui p)) /\
    ((5 <= clickCount (ui p) + length actions)%nat ->
       showDemoModal (ui (clicks actions p)) = true /\
       modalContent (ui (clicks actions p)) = design_demo).
Proof.
  induction actions as [|a actions IH]; intros p Hc.
  - cbn [clicks fold_left length]. rewrite Nat.add_0_r.
    split; [now rewrite Nat.mod_small by lia|]. split; [now split | lia].
  - cbn [clicks fold_left length]. fold (clicks actions (handleInteraction a p)).
    destruct (acted_frame a p) as (Hcount & Hshow & Hmodal & _).
    pose proof (handleInteraction_ui a p) as Hui.
    assert (Hc' : clickCount (ui (handleInteraction a p))
                  = ((clickCount (ui p) + 1) mod 5)%nat).
    { rewrite Hui, count_click_count by (rewrite Hcount; exact Hc).
      now rewrite Hcount. }
    assert (Hle' : (clickCount (ui (handleInteraction a p)) <= 4)%nat).
    { rewrite Hc'. apply Nat.lt_succ_r. apply Nat.mod_upper_bound. discriminate. }
    destruct (IH (handleInteraction a p) Hle') as (IHc & IHlow & IHhigh).
    destruct (count_click_modal (ui (acted a p))) as [Hm | Hbad];
      [|rewrite Hcount in Hbad; lia].
    rewrite Hcount, Hshow, Hmodal, <- Hui in Hm.
    split; [|split].
    + rewrite IHc, Hc', Nat.Div0.add_mod_idemp_l. f_equal. lia.
    + intros Hlow.
      replace (clickCount (ui p) =? 4)%nat with false in Hm
        by (symmetry; apply Nat.eqb_neq; lia).
      destruct Hm as [Hs Hmc]. rewrite <- Hs, <- Hmc. apply IHlow.
      rewrite Hc', Nat.mod_small by lia. lia.
    + intros Hhigh. destruct (clickCount (ui p) =? 4)%nat eqn:E4.
      * apply Nat.eqb_eq in E4. destruct Hm as [Hs Hmc].
        assert (H0 : clickCount (ui (handleInteraction a p)) = O)
          by (rewrite Hc', E4; reflexivity).
        destruct (le_lt_dec 5 (length actions)) as [Hn | Hn].
        -- apply IHhigh. lia.
        -- rewrite <- Hs, <- Hmc. apply IHlow. lia.
      * apply Nat.eqb_neq in E4. apply IHhigh.
        rewrite Hc', Nat.mod_small by lia. lia.
Qed.

Lemma guard_opens_modal_on_fifth_click_witness :
  showDemoModal
    (ui (clicks [Some ToggleDarkMode; None; Some OpenSite; None; Some (SelectTab "market")]
           (close_modal initial_page))) = true /\
  showDemoModal
    (ui (clicks [Some ToggleDarkMode; None; Some OpenSite; None]
           (close_modal initial_page))) = false.
Proof.
  split.
  - apply (guard_opens_modal_on_fifth_click
             [Some ToggleDarkMode; None; Some OpenSite; None; Some (SelectTab "market")]
             (close_modal initial_page)).
    + cbn. lia.
    + cbn. lia.
  - destruct (guard_opens_modal_on_fifth_click
                [Some ToggleDarkMode; None; Some OpenSite; None]
                (close_modal initial_page)) as (_ & Hlow & _).
    + cbn. lia.
    + destruct Hlow as [Hs _]; [cbn; lia|]. rewrite Hs. reflexivity.
Defined.

(** X19.  After every click of a mounted page exactly one timer is
    pending, the one the ref names; when it fires the counter is back at
    0, no timer is left pending, and nothing else of the interface has
    changed. *)
Theorem guard_timer_resets_counter (evs : list Event) (action : option Action) :
  exists id,
    clickTimerRef (handleInteraction action (play evs initial_page)) = Some id /\
    pending (handleInteraction action (play evs initial_page)) = [id] /\
    clickCount
      (ui (timer_fires id (handleInteraction action (play evs initial_page)))) = O /\
    pending (timer_fires id (handleInteraction action (play evs initial_page))) = [] /\
    showDemoModal
      (ui (timer_fires id (handleInteraction action (play evs initial_page))))
    = showDemoModal (ui (handleInteraction action (play evs initial_page))) /\
    isDarkMode
      (ui (timer_fires id (handleInteraction action (play evs initial_page))))
    = isDarkMode (ui (handleInteraction action (play evs initial_page))) /\
    activeTab
      (ui (timer_fires id (handleInteraction action (play evs initial_page))))
    = activeTab (ui (handleInteraction action (play evs initial_page))).
Proof.
  destruct initial_guarded as [Hg Hpos].
  destruct (play_guarded evs initial_page Hpos Hg) as [Hg' Hpos'].
  destruct (handle_guarded (play evs initial_page) (Click action) Hpos' Hg')
    as [[_ Hp] _].
  cbn [handle] in Hp.
  destruct (handleInteraction_timer action (play evs initial_page)) as (Hr & _ & Hpend).
  set (p := handleInteraction action (play evs initial_page)) in *.
  destruct Hp as [Hnil | (id & Hp & Hr' & _)].
  - rewrite Hnil in Hpend. symmetry in Hpend. apply app_eq_nil in Hpend.
    destruct Hpend as [_ Hbad]. discriminate.
  - exists id. split; [exact Hr'|]. split; [exact Hp|].
    unfold timer_fires. rewrite Hp. cbn [existsb]. rewrite Nat.eqb_refl.
    cbn [orb ui clickCount pending filter showDemoModal isDarkMode activeTab].
    rewrite Nat.eqb_refl. repeat split.
Qed.

(** X21.  Clicks that are each followed by the callback of the timer
    they armed never open the modal: from a reachable page whose counter
    is 0, after any number of such clicks the counter is 0 again and the
    modal and its text are as they were. *)
Theorem guard_ignores_slow_clicks
    (evs : list Event) (actions : list (option Action)) :
  clickCount (ui (play evs initial_page)) = O ->
  clickCount (ui (slow_clicks actions (play evs initial_page))) = O /\
  showDemoModal (ui (slow_clicks actions (play evs initial_page)))
    = showDemoModal (ui (play evs initial_page)) /\
  modalContent (ui (slow_clicks actions (play evs initial_page)))
    = modalContent (ui (play evs initial_page)).
Proof.
  destruct initial_guarded as [Hg Hpos].
  destruct (play_guarded evs initial_page Hpos Hg) as [Hg' Hpos'].
  generalize dependent (play evs initial_page). clear evs.
  induction actions as [|a actions IH]; intros p Hgp Hposp H0;
    [repeat split; exact H0|].
  cbn [slow_clicks fold_left]. fold (slow_clicks actions (slow_click p a)).
  destruct (handle_guarded p (Click a) Hposp Hgp) as [[Hc1 Hp1] Hpos1].
  cbn [handle] in *.
  destruct (handleInteraction_timer a p) as (Hr & _ & Hpend).
  destruct (acted_frame a p) as (Hcount & Hshow & Hmodal & _).
  pose proof (handleInteraction_ui a p) as Hui.
  destruct (count_click_modal (ui (acted a p))) as [Hm | Hbad];
    [|rewrite Hcount, H0 in Hbad; lia].
  rewrite Hcount, H0 in Hm. cbn [Nat.eqb] in Hm.
  rewrite Hshow, Hmodal, <- Hui in Hm. destruct Hm as [Hs Hmc].
  assert (Hstep : slow_click p a
                  = timer_fires (next_timer p) (handleInteraction a p)).
  { unfold slow_click. now rewrite Hr. }
  assert (Hfired : existsb (Nat.eqb (next_timer p))
                     (pending (handleInteraction a p)) = true).
  { rewrite Hpend, existsb_app. cbn. now rewrite Nat.eqb_refl, orb_true_r. }
  destruct (handle_guarded (handleInteraction a p) (TimerFires (next_timer p))
              Hpos1 (conj Hc1 Hp1)) as [Hg2 Hpos2].
  cbn [handle] in *. rewrite <- Hstep in Hg2, Hpos2.
  destruct (IH (slow_click p a) Hg2 Hpos2) as (IHc & IHs & IHm).
  - rewrite Hstep. unfold timer_fires. now rewrite Hfired.
  - split; [exact IHc|]. rewrite IHs, IHm, Hstep. unfold timer_fires.
    rewrite Hfired. cbn [ui showDemoModal modalContent]. now split.
Qed.

Lemma guard_ignores_slow_clicks_witness :
  showDemoModal
    (ui (slow_clicks [None; None; None; None; None; None; None]
           (play [CloseModal] initial_page))) = false.
Proof.
  destruct (guard_ignores_slow_clicks [CloseModal]
              [None; None; None; None; None; None; None]) as (_ & Hs & _).
  - reflexivity.
  - rewrite Hs. reflexivity.
Defined.

End DashboardProofs.
